(** * PageRank: a shallow embedding of [pagerank.py] and its properties

    The program builds a link graph from a directory of HTML pages
    ([crawl]), computes the random-surfer distribution of one step
    ([transition_model]) and estimates PageRank twice: by a random walk
    ([sample_pagerank]) and by iterating the PageRank recurrence
    ([iterate_pagerank]).

    Modelling choices.
    - A Python [dict] keyed by page names is a [gmap string _]; a Python
      [set] of page names is a [gset string].  Python iterates a dict in
      insertion order, the model in the order of [elements]/[map_to_list];
      all the arithmetic below is exact, so sums do not depend on it.  The
      random walk does depend on the order of the keys: [sample_pagerank_in]
      has the iteration orders of dicts and sets as parameters.
    - Python numbers ([int] and [float]) are exact rationals [Qc].  Every
      statement below is therefore a statement in exact arithmetic.
    - A Python exception is a value [Raise e] of the type [result].
    - The [while True] loop of [iterate_pagerank] runs on fuel: [None] means
      that the loop has not finished within the given number of rounds.
    - The [random] module is an interface ([RandomSource]) with explicit
      generator states. *)

From Stdlib Require Import DecimalString QArith Qcanon Lqa.
From stdpp Require Import sorting base option list sets gmap fin_maps strings numbers.

Local Open Scope Qc_scope.
#[local] Set Warnings "-clear-no-such-hyp".

(** ** Python exceptions and results *)

Inductive exn : Set :=
  | KeyError
  | ZeroDivisionError
  | IndexError
  | ValueError.

Inductive result (A : Type) : Type :=
  | Ok (a : A)
  | Raise (e : exn).
Arguments Ok {A} a.
Arguments Raise {A} e.

#[global] Instance result_ret : MRet result := λ A a, Ok a.
#[global] Instance result_bind : MBind result := λ A B f r,
  match r with
  | Ok a => f a
  | Raise e => Raise e
  end.

#[global] Instance exn_eq_dec : EqDecision exn.
Proof. solve_decision. Defined.
#[global] Instance result_eq_dec {A} `{EqDecision A} : EqDecision (result A).
Proof. solve_decision. Defined.

(** [for x in l: s = body x s], stopping at the first exception. *)
Fixpoint for_each {A S : Type} (l : list A) (body : A → S → result S) (s : S)
    : result S :=
  match l with
  | [] => Ok s
  | x :: l' => s' ← body x s; for_each l' body s'
  end.

(** [all(test p for p in l)]: stops at the first [False]. *)
Fixpoint py_all {A : Type} (l : list A) (test : A → result bool) : result bool :=
  match l with
  | [] => Ok true
  | x :: l' => b ← test x; if b : bool then py_all l' test else Ok false
  end.

(** ** Numbers *)

Definition Qc_of_nat (n : nat) : Qc := Qc_of_Z (Z.of_nat n).

(** [x / y] raises [ZeroDivisionError] when [y] is zero. *)
Definition pydiv (x y : Qc) : result Qc :=
  if bool_decide (y = 0) then Raise ZeroDivisionError else Ok (x / y).

(** [abs(x)] *)
Definition Qcabs (x : Qc) : Qc := if bool_decide (0 ≤ x) then x else - x.

Definition Qcsum (l : list Qc) : Qc := foldr Qcplus 0 l.

(** The sum of the values of a dict. *)
Definition sum_values (m : gmap string Qc) : Qc := Qcsum ((map_to_list m).*2).

(** ** Dicts *)

(** [d[k]]: raises [KeyError] when [k] is not a key. *)
Definition getitem {V : Type} (d : gmap string V) (k : string) : result V :=
  match d !! k with
  | Some v => Ok v
  | None => Raise KeyError
  end.

(** [d[k] += x] *)
Definition add_at (x : Qc) (k : string) (d : gmap string Qc)
    : result (gmap string Qc) :=
  v ← getitem d k; Ok (<[k := v + x]> d).

(** [list(d.keys())] and [list(d.values())], in the same order. *)
Definition keys {V : Type} (d : gmap string V) : list string := (map_to_list d).*1.
Definition values {V : Type} (d : gmap string V) : list V := (map_to_list d).*2.

(** [dict.fromkeys(keys, v)] *)
Definition fromkeys {V : Type} (keys : gset string) (v : V) : gmap string V :=
  gset_to_gmap v keys.

(** ** The link graph *)

Abbreviation Corpus := (gmap string (gset string)).
Abbreviation Dict := (gmap string Qc).

(** The invariant of a link graph: every link leads to a page of the corpus. *)
Definition closed_corpus (corpus : Corpus) : Prop :=
  ∀ p links, corpus !! p = Some links → links ⊆ dom corpus.

#[global] Instance closed_corpus_dec (corpus : Corpus) :
  Decision (closed_corpus corpus) :=
  decide (map_Forall (λ _ links, links ⊆ dom corpus) corpus).

Definition DAMPING : Qc := Q2Qc (85 # 100).
Definition SAMPLES : Z := 10000.

(** ** [crawl] *)

(** [s.endswith(suffix)] *)
Definition endswith (s suffix : string) : bool :=
  let n := String.length s in
  let k := String.length suffix in
  bool_decide (k ≤ n)%nat && String.eqb (String.substring (n - k) k s) suffix.

Section crawl.
(** [findall contents] stands for the call of [re.findall] on the
    contents of a file: the values of the [href] attributes of its [<a>]
    tags, in the order in which they occur.  A directory
    is the list of its file names, as [os.listdir] gives them, each with
    the contents of the file. *)
Context (findall : string → list string).

(** The first loop: one entry per HTML file, without the link of a page
    to itself. *)
Definition extract_links (directory : list (string * string)) : Corpus :=
  foldl (λ (pages : Corpus) '(filename, contents),
           if negb (endswith filename ".html") then pages
           else
             let links := findall contents in
             <[filename := list_to_set links ∖ {[filename]}]> pages)
        ∅ directory.

(** The body of the second loop: [pages[filename]] keeps the links that
    are keys of [pages]. *)
Definition restrict_links (filename : string) (pages : Corpus)
    : result Corpus :=
  links ← getitem pages filename;
  Ok (<[filename := filter (λ link, link ∈ dom pages) links]> pages).

Definition crawl (directory : list (string * string)) : result Corpus :=
  let pages := extract_links directory in
  for_each (keys pages) restrict_links pages.
End crawl.

(** ** [transition_model] *)

Definition transition_model (corpus : Corpus) (page : string)
    (damping_factor : Qc) : result Dict :=
  let n := size corpus in
  base ← pydiv (1 - damping_factor) (Qc_of_nat n);
  let distribution := fromkeys (dom corpus) base in
  links ← getitem corpus page;
  if bool_decide (links ≠ ∅) then
    link_prob ← pydiv damping_factor (Qc_of_nat (size links));
    for_each (elements links) (add_at link_prob) distribution
  else
    for_each (keys distribution)
      (λ key distribution,
         q ← pydiv damping_factor (Qc_of_nat n);
         add_at q key distribution)
      distribution.

(** ** [sample_pagerank] *)

(** The two functions of the module [random] that the program calls, with
    the state of the generator made explicit:
    [random.choice(seq)] and [random.choices(population, weights, k=1)[0]]. *)
Class RandomSource (G : Type) := {
  random_choice : list string → G → result (string * G);
  random_choices : list string → list Qc → G → result (string * G);
}.

(** What the program relies on: a choice from a non-empty sequence is one of
    its elements, and so is a weighted choice when there is one weight per
    element and the weights have a positive total. *)
Class RandomSourceLaws (G : Type) `{RandomSource G} : Prop := {
  random_choice_elem (l : list string) (g : G) :
    l ≠ [] → ∃ x g', random_choice l g = Ok (x, g') ∧ x ∈ l;
  random_choices_elem (population : list string) (weights : list Qc) (g : G) :
    population ≠ [] → length weights = length population →
    0 < Qcsum weights →
    ∃ x g', random_choices population weights g = Ok (x, g') ∧ x ∈ population;
}.

(** [range(n)] *)
Definition range (n : Z) : list Z := Z.of_nat <$> seq 0 (Z.to_nat n).

Section sample.
Context {G : Type} `{RandomSource G}.

(** The state of the walk: the counters, the current page, the generator. *)
Definition walk : Type := Dict * string * G.

(** The body of [for _ in range(n)]. *)
Definition sample_step (corpus : Corpus) (damping_factor : Qc) (st : walk)
    : result walk :=
  let '(pagerank, sample, g) := st in
  pagerank ← add_at 1 sample pagerank;
  distribution ← transition_model corpus sample damping_factor;
  '(sample, g) ← random_choices (keys distribution) (values distribution) g;
  Ok (pagerank, sample, g).

(** The body of [for page in pagerank: pagerank[page] /= n]. *)
Definition normalise (n : Z) (page : string) (pagerank : Dict) : result Dict :=
  v ← getitem pagerank page;
  q ← pydiv v (Qc_of_Z n);
  Ok (<[page := q]> pagerank).

Definition sample_pagerank (corpus : Corpus) (damping_factor : Qc) (n : Z)
    (g : G) : result (Dict * G) :=
  let pagerank := fromkeys (dom corpus) 0 in
  '(sample, g) ← random_choice (keys corpus) g;
  '(pagerank, _, g) ←
    for_each (range n) (λ _, sample_step corpus damping_factor)
             (pagerank, sample, g);
  pagerank ← for_each (keys pagerank) (normalise n) pagerank;
  Ok (pagerank, g).
End sample.

(** ** [iterate_pagerank] *)

Definition convergence_threshold : Qc := Q2Qc (1 # 1000).

(** The body of [for potential_linker in corpus]. *)
Definition linker_step (corpus : Corpus) (damping_factor : Qc) (n : nat)
    (pagerank : Dict) (page potential_linker : string) (total : Qc)
    : result Qc :=
  links ← getitem corpus potential_linker;
  if bool_decide (page ∈ links) || bool_decide (size links = 0%nat) then
    let link_count :=
      if bool_decide (size links ≠ 0%nat) then size links else n in
    r ← getitem pagerank potential_linker;
    q ← pydiv (damping_factor * r) (Qc_of_nat link_count);
    Ok (total + q)
  else Ok total.

(** The body of [for page in pagerank]. *)
Definition page_step (corpus : Corpus) (damping_factor : Qc) (n : nat)
    (pagerank : Dict) (page : string) (new_rank : Dict) : result Dict :=
  total ← pydiv (1 - damping_factor) (Qc_of_nat n);
  total ← for_each (keys corpus)
            (linker_step corpus damping_factor n pagerank page) total;
  Ok (<[page := total]> new_rank).

(** One pass of the [for] loop of a round: reads [pagerank], writes
    [new_rank]. *)
Definition update_ranks (corpus : Corpus) (damping_factor : Qc) (n : nat)
    (pagerank new_rank : Dict) : result Dict :=
  for_each (keys pagerank) (page_step corpus damping_factor n pagerank) new_rank.

(** [all(abs(new_rank[page] - pagerank[page]) < convergence_threshold
        for page in pagerank)] *)
Definition converged (pagerank new_rank : Dict) : result bool :=
  py_all (keys pagerank)
    (λ page,
       a ← getitem new_rank page;
       b ← getitem pagerank page;
       Ok (bool_decide (Qcabs (a - b) < convergence_threshold))).

(** The [while True] loop, on fuel: one unit per round. *)
Fixpoint iterate_loop (fuel : nat) (corpus : Corpus) (damping_factor : Qc)
    (n : nat) (pagerank new_rank : Dict) : option (result Dict) :=
  match fuel with
  | O => None
  | S fuel' =>
      match update_ranks corpus damping_factor n pagerank new_rank with
      | Raise e => Some (Raise e)
      | Ok new_rank =>
          match converged pagerank new_rank with
          | Raise e => Some (Raise e)
          | Ok true => Some (Ok pagerank)
          | Ok false =>
              iterate_loop fuel' corpus damping_factor n new_rank new_rank
          end
      end
  end.

Definition iterate_pagerank (fuel : nat) (corpus : Corpus)
    (damping_factor : Qc) : option (result Dict) :=
  let n := size corpus in
  match pydiv 1 (Qc_of_nat n) with
  | Raise e => Some (Raise e)
  | Ok r0 =>
      let pagerank := fromkeys (dom corpus) r0 in
      let new_rank := fromkeys (dom corpus) 0 in
      iterate_loop fuel corpus damping_factor n pagerank new_rank
  end.

(** ** [main] *)

(** How a run of the program ends: [main] returns, [sys.exit] is called
    with a message, or an exception is not caught. *)
Inductive ending : Type :=
  | Returned
  | SysExit (message : string)
  | Uncaught (e : exn).

(** The order in which [sorted] puts page names: strings are compared
    character by character. *)
Definition string_le (s1 s2 : string) : Prop := String.leb s1 s2 = true.

#[global] Instance string_le_dec : RelDecision string_le :=
  λ s1 s2, decide (String.leb s1 s2 = true).

(** [sorted(d)]: the keys of a dict, in increasing order. *)
Definition sorted {V : Type} (d : gmap string V) : list string :=
  merge_sort string_le (keys d).

(** [str(n)] for an integer [n]. *)
Definition str_of_int (n : Z) : string := NilZero.string_of_int (Z.to_int n).

Section main.
Context {G : Type} `{RandomSource G}.
(** The link targets of a document (see [crawl]), the files of a directory
    ([os.listdir] and the contents of each file), and the text of a number
    with four decimal places (the format [.4f]). *)
Context (findall : string → list string).
Context (listdir : string → list (string * string)).
Context (format_4f : Qc → string).

(** [f"  {page}: {ranks[page]:.4f}"] *)
Definition rank_line (page : string) (v : Qc) : string :=
  "  " +:+ page +:+ ": " +:+ format_4f v.

(** [for page in pages: print(f"  {page}: {ranks[page]:.4f}")], after the
    lines [out]: the lines printed, and the exception that stopped the loop,
    if any. *)
Fixpoint print_ranks (pages : list string) (ranks : Dict) (out : list string)
    : list string * option exn :=
  match pages with
  | [] => (out, None)
  | page :: pages' =>
      match getitem ranks page with
      | Ok v => print_ranks pages' ranks (out ++ [rank_line page v])
      | Raise e => (out, Some e)
      end
  end.

(** [main()], with [sys.argv = argv]: the lines printed and the way the run
    ends ([None]: the loop of [iterate_pagerank] is still running when the
    fuel is used up). *)
Definition main (fuel : nat) (argv : list string) (g : G)
    : list string * option ending :=
  if bool_decide (length argv ≠ 2%nat) then
    ([], Some (SysExit "Usage: python pagerank.py corpus"))
  else
    match argv !! 1%nat with
    | None => ([], Some (Uncaught IndexError))
    | Some directory =>
        match crawl findall (listdir directory) with
        | Raise e => ([], Some (Uncaught e))
        | Ok corpus =>
            match sample_pagerank corpus DAMPING SAMPLES g with
            | Raise e => ([], Some (Uncaught e))
            | Ok (ranks, _) =>
                let out :=
                  ["PageRank Results from Sampling (n = "
                   +:+ str_of_int SAMPLES +:+ ")"] in
                match print_ranks (sorted ranks) ranks out with
                | (out, Some e) => (out, Some (Uncaught e))
                | (out, None) =>
                    match iterate_pagerank fuel corpus DAMPING with
                    | None => (out, None)
                    | Some (Raise e) => (out, Some (Uncaught e))
                    | Some (Ok ranks) =>
                        let out := out ++ ["PageRank Results from Iteration"] in
                        match print_ranks (sorted ranks) ranks out with
                        | (out, Some e) => (out, Some (Uncaught e))
                        | (out, None) => (out, Some Returned)
                        end
                    end
                end
            end
        end
    end.
End main.

(** ** The recurrence of the specification

    [recurrence corpus d rank p] is the right-hand side of
    [new_rank(p) = (1 - d)/N + d * (sum over the pages q that link to p of
    rank(q)/outdegree(q)) + d * (sum over the dangling pages q of rank(q)/N)]. *)

Definition rank_of (rank : Dict) (q : string) : Qc := default 0 (rank !! q).

Definition recurrence (corpus : Corpus) (d : Qc) (rank : Dict) (p : string) : Qc :=
  (1 - d) / Qc_of_nat (size corpus)
  + d * Qcsum ((λ ql : string * gset string,
                  rank_of rank ql.1 / Qc_of_nat (size ql.2))
               <$> filter (λ ql, p ∈ ql.2) (map_to_list corpus))
  + d * Qcsum ((λ ql : string * gset string,
                  rank_of rank ql.1 / Qc_of_nat (size corpus))
               <$> filter (λ ql, size ql.2 = 0%nat) (map_to_list corpus)).

(** ** What one round computes

    [weight corpus d p q] is the share of the rank of [q] that the inner loop
    of [iterate_pagerank] adds to the total of [p]; [next_rank] is the rank
    vector that a round computes from [rank]. *)

Definition weight (corpus : Corpus) (d : Qc) (p q : string) : Qc :=
  match corpus !! q with
  | Some links =>
      if bool_decide (p ∈ links) || bool_decide (size links = 0%nat) then
        d / Qc_of_nat (if bool_decide (size links ≠ 0%nat) then size links
                       else size corpus)
      else 0
  | None => 0
  end.

Definition new_rank_of (corpus : Corpus) (d : Qc) (rank : Dict) (p : string) : Qc :=
  (1 - d) / Qc_of_nat (size corpus)
  + Qcsum ((λ q, weight corpus d p q * rank_of rank q) <$> keys corpus).

Definition next_rank (corpus : Corpus) (d : Qc) (rank : Dict) : Dict :=
  map_imap (λ p _, Some (new_rank_of corpus d rank p)) rank.

(** The rank vector after [k] rounds. *)
Fixpoint rank_after (k : nat) (corpus : Corpus) (d : Qc) : Dict :=
  match k with
  | O => fromkeys (dom corpus) (1 / Qc_of_nat (size corpus))
  | S k' => next_rank corpus d (rank_after k' corpus d)
  end.

(** The rank vectors of the specification: one value in [0,1] per page of
    the corpus, with sum 1. *)
Definition rank_vector (corpus : Corpus) (rank : Dict) : Prop :=
  dom rank = dom corpus ∧
  (∀ p v, rank !! p = Some v → 0 ≤ v ≤ 1) ∧
  sum_values rank = 1.

(** The test of a round, as a proposition: no page has moved by
    [convergence_threshold] or more. *)
Definition close_enough (rank new_rank : Dict) : Prop :=
  ∀ p, p ∈ dom rank →
    Qcabs (rank_of new_rank p - rank_of rank p) < convergence_threshold.

Definition close_enoughb (rank new_rank : Dict) : bool :=
  forallb (λ p, bool_decide (Qcabs (rank_of new_rank p - rank_of rank p)
                             < convergence_threshold))
          (keys rank).

(** The distance between two rank vectors: the sum over the pages of the
    corpus of the differences of their ranks. *)
Definition distance (corpus : Corpus) (rank rank' : Dict) : Qc :=
  Qcsum ((λ p, Qcabs (rank_of rank' p - rank_of rank p)) <$> keys corpus).

(** ** Counting the visits

    [counted pages k counts]: the counters [counts], one per page of
    [pages], are reached from zero by exactly [k] steps, each of which adds
    one to the counter of one page and leaves the others as they are. *)
Inductive counted (pages : gset string) : nat → gmap string nat → Prop :=
  | counted_O : counted pages 0 (fromkeys pages 0%nat)
  | counted_S (k : nat) (counts : gmap string nat) (p : string) (c : nat) :
      counted pages k counts →
      counts !! p = Some c →
      counted pages (S k) (<[p := S c]> counts).

(** The walk as the specification describes it.  [walk_steps corpus d k w w']:
    [k] steps lead from the state [w] to the state [w']; a step adds one to
    the counter of the current page and to no other counter, computes the
    distribution of [transition_model] for the current page, and makes the
    page drawn with these weights the current page. *)
Inductive walk_steps {G : Type} `{RandomSource G} (corpus : Corpus) (d : Qc)
    : nat → @walk G → @walk G → Prop :=
  | walk_steps_O (w : walk) : walk_steps corpus d 0 w w
  | walk_steps_S (k : nat) (pagerank : Dict) (sample : string) (g : G) (c : Qc)
      (distribution : Dict) (sample' : string) (g' : G) (w : walk) :
      pagerank !! sample = Some c →
      transition_model corpus sample d = Ok distribution →
      random_choices (keys distribution) (values distribution) g
      = Ok (sample', g') →
      walk_steps corpus d k (<[sample := c + 1]> pagerank, sample', g') w →
      walk_steps corpus d (S k) (pagerank, sample, g) w.

(** ** The iteration orders of Python

    Python iterates a dict in the order in which its keys were inserted and
    a set in an order that depends on the hashes of its elements, which
    change from one run of the interpreter to the next.  The functions
    below are [transition_model] and [sample_pagerank] again, with these
    orders as parameters: [key_order] is the order of the keys of [corpus],
    which [distribution] and [pagerank] inherit through [dict.fromkeys],
    and [set_order links] is the order in which a run iterates the set
    [links]. *)

(** [[d[k] for k in order]]: the values of a dict in the order of its keys. *)
Fixpoint getitems (d : Dict) (order : list string) : result (list Qc) :=
  match order with
  | [] => Ok []
  | k :: order' => v ← getitem d k; vs ← getitems d order'; Ok (v :: vs)
  end.

Section orders.
Context {G : Type} `{RandomSource G}.
Context (key_order : list string) (set_order : gset string → list string).

Definition transition_model_in (corpus : Corpus) (page : string)
    (damping_factor : Qc) : result Dict :=
  let n := size corpus in
  base ← pydiv (1 - damping_factor) (Qc_of_nat n);
  let distribution := fromkeys (dom corpus) base in
  links ← getitem corpus page;
  if bool_decide (links ≠ ∅) then
    link_prob ← pydiv damping_factor (Qc_of_nat (size links));
    for_each (set_order links) (add_at link_prob) distribution
  else
    for_each key_order
      (λ key distribution,
         q ← pydiv damping_factor (Qc_of_nat n);
         add_at q key distribution)
      distribution.

Definition sample_step_in (corpus : Corpus) (damping_factor : Qc) (st : walk)
    : result walk :=
  let '(pagerank, sample, g) := st in
  pagerank ← add_at 1 sample pagerank;
  distribution ← transition_model_in corpus sample damping_factor;
  weights ← getitems distribution key_order;
  '(sample, g) ← random_choices key_order weights g;
  Ok (pagerank, sample, g).

Definition sample_pagerank_in (corpus : Corpus) (damping_factor : Qc) (n : Z)
    (g : G) : result (Dict * G) :=
  let pagerank := fromkeys (dom corpus) 0 in
  '(sample, g) ← random_choice key_order g;
  '(pagerank, _, g) ←
    for_each (range n) (λ _, sample_step_in corpus damping_factor)
             (pagerank, sample, g);
  pagerank ← for_each key_order (normalise n) pagerank;
  Ok (pagerank, g).
End orders.

(** ** A random source for examples

    The state is a number; a linear congruential step gives the next
    state.  [random_choice] takes the element at the index given by the
    state; [random_choices] draws from the cumulative weights, at the point
    given by the state, and stops at the last element. *)

Definition next_state (g : nat) : nat := ((g * 75 + 74) mod 1009)%nat.

Fixpoint bisect (population : list string) (weights : list Qc) (cum x : Qc)
    (last : string) : string :=
  match population, weights with
  | p :: population', w :: weights' =>
      if bool_decide (x < cum + w) then p
      else bisect population' weights' (cum + w) x p
  | _, _ => last
  end.

#[global] Instance example_source : RandomSource nat := {
  random_choice l g :=
    match l with
    | [] => Raise IndexError
    | x :: _ => Ok (nth (g mod length l) l x, next_state g)
    end;
  random_choices population weights g :=
    match population with
    | [] => Raise IndexError
    | p :: _ =>
        if bool_decide (length weights ≠ length population) then Raise ValueError
        else if bool_decide (Qcsum weights ≤ 0) then Raise ValueError
        else
          let x := Qc_of_nat (g mod 1000) / Qc_of_nat 1000 * Qcsum weights in
          Ok (bisect population weights 0 x p, next_state g)
    end;
}.

(** ** An example directory

    [words] stands in for the extraction of links in the examples: the
    contents of an example file are its link targets, separated by
    spaces. *)
Fixpoint words_from (word : string) (s : string) : list string :=
  match s with
  | EmptyString => if bool_decide (word = EmptyString) then [] else [word]
  | String c s' =>
      if bool_decide (String c EmptyString = " ") then
        if bool_decide (word = EmptyString) then words_from EmptyString s'
        else word :: words_from EmptyString s'
      else words_from (word +:+ String c EmptyString) s'
  end.

Definition words (s : string) : list string := words_from EmptyString s.

Definition example_directory : list (string * string) :=
  [ ("a.html", "a.html");
    ("b.html", "a.html c.html elsewhere.html");
    ("c.html", "b.html c.html");
    ("notes.txt", "a.html") ].

(** ** Example corpora *)

(** [{"A": set(), "B": {"A"}}] *)
Definition corpusAB : Corpus := {[ "A" := ∅; "B" := {[ "A" ]} ]}.

(** [{"1.html": {"2.html"}, "2.html": {"1.html", "3.html"},
      "3.html": {"2.html"}}] *)
Definition corpus3 : Corpus :=
  {[ "1.html" := {[ "2.html" ]};
     "2.html" := {[ "1.html"; "3.html" ]};
     "3.html" := {[ "2.html" ]} ]}.

(** * Properties *)

(** ** The result monad and loops *)

Lemma bind_Ok {A B} (f : A → result B) (a : A) : (Ok a ≫= f) = f a.
Proof. reflexivity. Qed.

Lemma bind_Ok_inv {A B} (f : A → result B) (r : result A) (b : B) :
  r ≫= f = Ok b → ∃ a, r = Ok a ∧ f a = Ok b.
Proof. destruct r as [a|e]; [eauto | discriminate]. Qed.

Lemma for_each_app {A S} (l1 l2 : list A) (body : A → S → result S) (s : S) :
  for_each (l1 ++ l2) body s = for_each l1 body s ≫= for_each l2 body.
Proof.
  revert s. induction l1 as [|x l1 IH]; intros s; simpl; [done|].
  destruct (body x s) as [s'|e]; simpl; [apply IH | done].
Qed.

(** A loop whose body cannot fail on the states that satisfy an invariant. *)
Lemma for_each_invariant {A S} (I : S → Prop) (P : A → Prop)
    (body : A → S → result S) (l : list A) (s : S) :
  (∀ x s, P x → I s → ∃ s', body x s = Ok s' ∧ I s') →
  Forall P l → I s →
  ∃ s', for_each l body s = Ok s' ∧ I s'.
Proof.
  intros Hbody Hl. revert s.
  induction Hl as [|x l Hx _ IH]; intros s Hs; simpl; [eauto|].
  destruct (Hbody x s Hx Hs) as (s' & -> & Hs'). simpl. by apply IH.
Qed.

Lemma getitem_Some {V} (d : gmap string V) (k : string) (v : V) :
  d !! k = Some v → getitem d k = Ok v.
Proof. unfold getitem. by intros ->. Qed.

Lemma getitem_None {V} (d : gmap string V) (k : string) :
  d !! k = None → getitem d k = Raise KeyError.
Proof. unfold getitem. by intros ->. Qed.

Lemma getitem_Ok {V} (d : gmap string V) (k : string) (v : V) :
  getitem d k = Ok v ↔ d !! k = Some v.
Proof. unfold getitem. destruct (d !! k); split; congruence. Qed.

(** ** Keys and values *)

Lemma elem_of_keys {V} (d : gmap string V) (k : string) :
  k ∈ keys d ↔ k ∈ dom d.
Proof.
  unfold keys. rewrite elem_of_dom, list_elem_of_fmap. split.
  - intros ([k' v] & -> & Hkv). apply elem_of_map_to_list in Hkv. eauto.
  - intros [v Hv]. exists (k, v). split; [done|]. by apply elem_of_map_to_list.
Qed.

Lemma NoDup_keys {V} (d : gmap string V) : NoDup (keys d).
Proof. apply NoDup_fst_map_to_list. Qed.

Lemma length_keys {V} (d : gmap string V) : length (keys d) = size d.
Proof. unfold keys. by rewrite length_fmap, length_map_to_list. Qed.

Lemma length_values {V} (d : gmap string V) : length (values d) = size d.
Proof. unfold values. by rewrite length_fmap, length_map_to_list. Qed.

Lemma keys_Permutation {V W} (d : gmap string V) (d' : gmap string W) :
  dom d = dom d' → keys d ≡ₚ keys d'.
Proof.
  intros Hdom. apply NoDup_Permutation; [apply NoDup_keys..|].
  intros k. by rewrite !elem_of_keys, Hdom.
Qed.

Lemma keys_nil {V} (d : gmap string V) : keys d = [] ↔ d = ∅.
Proof.
  split.
  - intros Hk. apply map_size_empty_iff. by rewrite <-length_keys, Hk.
  - intros ->. unfold keys. by rewrite map_to_list_empty.
Qed.

Lemma dom_fromkeys {V} (ks : gset string) (v : V) : dom (fromkeys ks v) = ks.
Proof. apply dom_gset_to_gmap. Qed.

Lemma lookup_fromkeys {V} (ks : gset string) (v : V) (k : string) :
  fromkeys ks v !! k = if bool_decide (k ∈ ks) then Some v else None.
Proof.
  unfold fromkeys. case_bool_decide.
  - by apply lookup_gset_to_gmap_Some.
  - by apply lookup_gset_to_gmap_None.
Qed.

(** ** Rational numbers *)

Lemma Qc_of_Z_this (z : Z) : this (Qc_of_Z z) = inject_Z z.
Proof. reflexivity. Qed.

Lemma Qc_of_Z_plus (a b : Z) : Qc_of_Z (a + b) = Qc_of_Z a + Qc_of_Z b.
Proof.
  apply Qc_is_canon. simpl. by rewrite Qred_correct, inject_Z_plus.
Qed.

Lemma Qc_of_Z_inj (a b : Z) : Qc_of_Z a = Qc_of_Z b → a = b.
Proof.
  intros Heq. apply (f_equal this) in Heq. simpl in Heq.
  by injection Heq.
Qed.

Lemma Qc_of_Z_lt (a b : Z) : (a < b)%Z → Qc_of_Z a < Qc_of_Z b.
Proof. intros Hab. unfold Qclt. simpl. by rewrite <-Zlt_Qlt. Qed.

Lemma Qc_of_Z_le (a b : Z) : (a ≤ b)%Z → Qc_of_Z a ≤ Qc_of_Z b.
Proof. intros Hab. unfold Qcle. simpl. by rewrite <-Zle_Qle. Qed.

Lemma Qc_of_nat_0 : Qc_of_nat 0 = 0.
Proof. by apply Qc_is_canon. Qed.

Lemma Qc_of_nat_S (n : nat) : Qc_of_nat (S n) = 1 + Qc_of_nat n.
Proof.
  unfold Qc_of_nat. rewrite Nat2Z.inj_succ, <-Z.add_1_l, Qc_of_Z_plus.
  f_equal.
Qed.

Lemma Qc_of_nat_plus (n m : nat) : Qc_of_nat (n + m) = Qc_of_nat n + Qc_of_nat m.
Proof. unfold Qc_of_nat. by rewrite Nat2Z.inj_add, Qc_of_Z_plus. Qed.

Lemma Qc_of_nat_pos (n : nat) : n ≠ 0%nat → 0 < Qc_of_nat n.
Proof.
  intros Hn. rewrite <-Qc_of_nat_0. apply Qc_of_Z_lt. lia.
Qed.

Lemma Qc_of_nat_nonneg (n : nat) : 0 ≤ Qc_of_nat n.
Proof. rewrite <-Qc_of_nat_0. apply Qc_of_Z_le. lia. Qed.

Lemma Qc_of_nat_ne_0 (n : nat) : n ≠ 0%nat → Qc_of_nat n ≠ 0.
Proof.
  intros Hn Heq. apply Qc_of_nat_pos in Hn. rewrite Heq in Hn.
  by apply Qclt_not_eq in Hn.
Qed.

Lemma pydiv_Ok (x y : Qc) : y ≠ 0 → pydiv x y = Ok (x / y).
Proof. intros Hy. unfold pydiv. by rewrite bool_decide_eq_false_2. Qed.

Lemma pydiv_0 (x : Qc) : pydiv x 0 = Raise ZeroDivisionError.
Proof. unfold pydiv. by rewrite bool_decide_eq_true_2. Qed.

Lemma pydiv_nat (x : Qc) (n : nat) :
  n ≠ 0%nat → pydiv x (Qc_of_nat n) = Ok (x / Qc_of_nat n).
Proof. intros Hn. by apply pydiv_Ok, Qc_of_nat_ne_0. Qed.

Lemma Qc_eq_Qeq (x y : Qc) : x = y ↔ (this x == this y)%Q.
Proof. split; [by intros -> | apply Qc_is_canon]. Qed.

(** Linear arithmetic on [Qc], through [Q]. *)
Ltac qc_to_q :=
  repeat match goal with
  | H : @eq Qc _ _ |- _ => apply Qc_eq_Qeq in H
  | H : ¬ (@eq Qc _ _) |- _ => rewrite Qc_eq_Qeq in H
  | |- @eq Qc _ _ => apply Qc_is_canon
  | |- ¬ (@eq Qc _ _) => rewrite Qc_eq_Qeq
  end;
  unfold Qcle, Qclt, Qcminus, Qcplus, Qcopp, Qcmult, Q2Qc in *; simpl this in *;
  rewrite ?Qred_correct in *.
Ltac qc_lra := qc_to_q; lra.
Ltac qc_nra := qc_to_q; nra.

Lemma Qcdiv_mult_cancel (x y : Qc) : y ≠ 0 → y * (x / y) = x.
Proof. intros Hy. by field. Qed.

Lemma Qcdiv_nonneg (x y : Qc) : 0 ≤ x → 0 < y → 0 ≤ x / y.
Proof.
  intros Hx Hy. unfold Qcdiv. apply Qcmult_nonneg_nonneg; [done|].
  apply Qclt_le_weak, Qcinv_pos. done.
Qed.

Lemma Qcdiv_pos (x y : Qc) : 0 < x → 0 < y → 0 < x / y.
Proof.
  intros Hx Hy. unfold Qcdiv. apply Qcmult_pos_pos; [done|].
  by apply Qcinv_pos.
Qed.

(** ** Sums *)

Lemma Qcsum_cons (x : Qc) (l : list Qc) : Qcsum (x :: l) = x + Qcsum l.
Proof. reflexivity. Qed.

Lemma Qcsum_app (l1 l2 : list Qc) : Qcsum (l1 ++ l2) = Qcsum l1 + Qcsum l2.
Proof.
  induction l1 as [|x l1 IH]; simpl; [by rewrite Qcplus_0_l|].
  rewrite IH. ring.
Qed.

#[global] Instance Qcsum_Permutation : Proper ((≡ₚ) ==> (=)) Qcsum.
Proof.
  intros l1 l2 Hp. induction Hp as [|x l1 l2 _ IH|x y l|l1 l2 l3 _ IH1 _ IH2]; simpl.
  - done.
  - by rewrite IH.
  - ring.
  - by rewrite IH1.
Qed.

Lemma Qcsum_nonneg (l : list Qc) : Forall (λ x, 0 ≤ x) l → 0 ≤ Qcsum l.
Proof.
  induction 1 as [|x l Hx _ IH]; simpl; [done|].
  by apply Qcplus_nonneg_nonneg.
Qed.

Lemma Qcsum_elem_le (l : list Qc) (x : Qc) :
  Forall (λ x, 0 ≤ x) l → x ∈ l → x ≤ Qcsum l.
Proof.
  intros Hl Hx. induction Hl as [|y l Hy Hl IH]; [by apply elem_of_nil in Hx|].
  apply elem_of_cons in Hx as [->|Hx]; simpl.
  - apply Qcsum_nonneg in Hl. qc_lra.
  - specialize (IH Hx). qc_lra.
Qed.

Section sums.
Context {A : Type}.
Implicit Types (f g : A → Qc) (l : list A).

Lemma Qcsum_fmap_const (c : Qc) l :
  Qcsum ((λ _, c) <$> l) = Qc_of_nat (length l) * c.
Proof.
  induction l as [|x l IH]; csimpl.
  - rewrite Qc_of_nat_0. ring.
  - rewrite IH, Qc_of_nat_S. ring.
Qed.

Lemma Qcsum_fmap_plus f g l :
  Qcsum ((λ x, f x + g x) <$> l) = Qcsum (f <$> l) + Qcsum (g <$> l).
Proof. induction l as [|x l IH]; csimpl; [|rewrite IH]; ring. Qed.

Lemma Qcsum_fmap_mult (c : Qc) f l :
  Qcsum ((λ x, c * f x) <$> l) = c * Qcsum (f <$> l).
Proof. induction l as [|x l IH]; csimpl; [|rewrite IH]; ring. Qed.

Lemma Qcsum_fmap_ext f g l :
  (∀ x, x ∈ l → f x = g x) → Qcsum (f <$> l) = Qcsum (g <$> l).
Proof.
  intros Hfg. f_equal. apply list_fmap_ext. intros i x Hx.
  apply Hfg. by eapply list_elem_of_lookup_2.
Qed.

Lemma Qcsum_fmap_le f g l :
  (∀ x, x ∈ l → f x ≤ g x) → Qcsum (f <$> l) ≤ Qcsum (g <$> l).
Proof.
  induction l as [|x l IH]; intros Hfg; csimpl; [done|].
  apply Qcplus_le_compat.
  - apply Hfg. left.
  - apply IH. intros y Hy. apply Hfg. by right.
Qed.

Lemma Qcsum_fmap_nonneg f l :
  (∀ x, x ∈ l → 0 ≤ f x) → 0 ≤ Qcsum (f <$> l).
Proof.
  intros Hf. apply Qcsum_nonneg. rewrite Forall_fmap, Forall_forall.
  intros x Hx. simpl. by apply Hf, list_elem_of_In.
Qed.

(** A sum that selects with a test counts the elements that pass it. *)
Lemma Qcsum_fmap_filter (P : A → Prop) `{!∀ x, Decision (P x)} (c : Qc) l :
  Qcsum ((λ x, if bool_decide (P x) then c else 0) <$> l)
  = Qc_of_nat (length (filter P l)) * c.
Proof.
  induction l as [|x l IH]; csimpl.
  - rewrite Qc_of_nat_0. ring.
  - rewrite IH. case_bool_decide.
    + rewrite filter_cons_True by done. simpl. rewrite Qc_of_nat_S. ring.
    + rewrite filter_cons_False by done. ring.
Qed.
End sums.

(** Two nested sums can be exchanged. *)
Lemma Qcsum_exchange {A B} (f : A → B → Qc) (l1 : list A) (l2 : list B) :
  Qcsum ((λ x, Qcsum ((λ y, f x y) <$> l2)) <$> l1)
  = Qcsum ((λ y, Qcsum ((λ x, f x y) <$> l1)) <$> l2).
Proof.
  induction l1 as [|x l1 IH]; csimpl.
  - induction l2 as [|y l2 IH]; csimpl; [done|]. rewrite <-IH. ring.
  - rewrite IH, <-Qcsum_fmap_plus. done.
Qed.

Lemma sum_values_empty : sum_values ∅ = 0.
Proof. unfold sum_values. by rewrite map_to_list_empty. Qed.

Lemma sum_values_insert (m : Dict) (k : string) (v : Qc) :
  m !! k = None → sum_values (<[k := v]> m) = v + sum_values m.
Proof.
  intros Hk. unfold sum_values. by rewrite map_to_list_insert.
Qed.

Lemma sum_values_update (m : Dict) (k : string) (v v' : Qc) :
  m !! k = Some v → sum_values (<[k := v']> m) = sum_values m - v + v'.
Proof.
  intros Hk. rewrite <-(insert_delete_id m k v) at 2 by done.
  rewrite <-(insert_delete_eq m k v').
  rewrite !sum_values_insert by apply lookup_delete_eq. ring.
Qed.

(** The sum of a dict whose values are given by a function of the key. *)
Lemma sum_values_keys (m : Dict) (f : string → Qc) :
  (∀ k v, m !! k = Some v → v = f k) →
  sum_values m = Qcsum (f <$> keys m).
Proof.
  intros Hf. unfold sum_values, keys. rewrite <-list_fmap_compose.
  f_equal. apply list_fmap_ext. intros i [k v] Hkv. simpl.
  apply Hf, elem_of_map_to_list. by eapply list_elem_of_lookup_2.
Qed.

Lemma sum_values_fromkeys (ks : gset string) (c : Qc) :
  sum_values (fromkeys ks c) = Qc_of_nat (size ks) * c.
Proof.
  rewrite (sum_values_keys _ (λ _, c)).
  - rewrite Qcsum_fmap_const, length_keys, <-size_dom, dom_fromkeys. done.
  - intros k v. rewrite lookup_fromkeys. case_bool_decide; congruence.
Qed.

Lemma sum_values_values (m : Dict) : sum_values m = Qcsum (values m).
Proof. reflexivity. Qed.

(** ** Adding to the entries of a dict *)

Lemma for_each_ext {A S} (body1 body2 : A → S → result S) (l : list A) (s : S) :
  (∀ x s, body1 x s = body2 x s) → for_each l body1 s = for_each l body2 s.
Proof.
  intros Hb. revert s. induction l as [|x l IH]; intros s; simpl; [done|].
  rewrite Hb. destruct (body2 x s); simpl; [apply IH | done].
Qed.

Lemma add_at_Ok (x : Qc) (k : string) (d : Dict) (v : Qc) :
  d !! k = Some v → add_at x k d = Ok (<[k := v + x]> d).
Proof. intros Hk. unfold add_at. by rewrite (getitem_Some _ _ _ Hk). Qed.

Lemma add_at_KeyError (x : Qc) (k : string) (d : Dict) :
  d !! k = None → add_at x k d = Raise KeyError.
Proof. intros Hk. unfold add_at. by rewrite (getitem_None _ _ Hk). Qed.

(** [for k in l: d[k] += x], for distinct keys [l] of [d]. *)
Lemma for_each_add_at (x : Qc) (l : list string) (d : Dict) :
  NoDup l → (∀ k, k ∈ l → k ∈ dom d) →
  ∃ d', for_each l (add_at x) d = Ok d' ∧
    dom d' = dom d ∧
    (∀ k v, d !! k = Some v →
       d' !! k = Some (if bool_decide (k ∈ l) then v + x else v)) ∧
    sum_values d' = sum_values d + Qc_of_nat (length l) * x.
Proof.
  intros Hnd. revert d.
  induction Hnd as [|k l Hk Hnd IH]; intros d Hdom.
  - exists d. repeat split; [|simpl; rewrite Qc_of_nat_0; ring].
    intros k v Hv. rewrite bool_decide_eq_false_2; [done|]. apply not_elem_of_nil.
  - assert (k ∈ dom d) as [v Hv]%elem_of_dom by (apply Hdom; left).
    destruct (IH (<[k := v + x]> d)) as (d' & Hrun & Hd' & Hlook & Hsum).
    { intros k' Hk'. rewrite dom_insert_L. apply elem_of_union_r, Hdom. by right. }
    exists d'. simpl. rewrite (add_at_Ok _ _ _ _ Hv). simpl.
    split; [done|]. split; [|split].
    + rewrite Hd', dom_insert_L. apply elem_of_dom_2 in Hv.
      apply set_eq. intros q. rewrite elem_of_union, elem_of_singleton.
      naive_solver.
    + intros q w Hq. destruct (decide (q = k)) as [->|Hne].
      * rewrite (Hlook k (v + x)) by apply lookup_insert_eq.
        rewrite bool_decide_eq_false_2 by done.
        rewrite bool_decide_eq_true_2 by left. congruence.
      * rewrite (Hlook q w) by (by rewrite lookup_insert_ne).
        rewrite (bool_decide_ext (q ∈ k :: l) (q ∈ l)); [done|].
        rewrite elem_of_cons. naive_solver.
    + rewrite Hsum, (sum_values_update _ _ _ _ Hv), Qc_of_nat_S. ring.
Qed.

(** ** [transition_model] *)

Section transition_model.
Context (corpus : Corpus) (page : string) (d : Qc) (links : gset string).
Hypothesis Hpage : corpus !! page = Some links.
Hypothesis Hlinks : links ⊆ dom corpus.

Local Abbreviation N := (Qc_of_nat (size corpus)).
Local Abbreviation L := (Qc_of_nat (size links)).

Lemma corpus_size_ne_0 : size corpus ≠ 0%nat.
Proof.
  intros Hz. apply map_size_empty_iff in Hz. by rewrite Hz in Hpage.
Qed.

Lemma links_size_ne_0 : links ≠ ∅ → size links ≠ 0%nat.
Proof. intros Hne Hz. by apply size_empty_iff, leibniz_equiv in Hz. Qed.

(** The linked branch. *)
Lemma transition_model_linked :
  links ≠ ∅ →
  ∃ dist, transition_model corpus page d = Ok dist ∧
    dom dist = dom corpus ∧
    (∀ q, q ∈ dom corpus →
       dist !! q = Some (if bool_decide (q ∈ links)
                         then (1 - d) / N + d / L else (1 - d) / N)) ∧
    sum_values dist = N * ((1 - d) / N) + L * (d / L).
Proof.
  intros Hne. unfold transition_model.
  rewrite (pydiv_nat (1 - d)) by apply corpus_size_ne_0. simpl.
  rewrite (getitem_Some _ _ _ Hpage). simpl.
  rewrite bool_decide_eq_true_2 by done.
  rewrite pydiv_nat by by apply links_size_ne_0. simpl.
  destruct (for_each_add_at (d / L) (elements links)
              (fromkeys (dom corpus) ((1 - d) / N)))
    as (dist & Hrun & Hdom & Hlook & Hsum).
  { apply NoDup_elements. }
  { intros k Hk%elem_of_elements. rewrite dom_fromkeys. by apply Hlinks. }
  exists dist. split; [done|]. rewrite dom_fromkeys in Hdom.
  split; [done|]. split.
  - intros q Hq. rewrite (Hlook q ((1 - d) / N)).
    + rewrite (bool_decide_ext (q ∈ elements links) (q ∈ links)); [done|].
      apply elem_of_elements.
    + rewrite lookup_fromkeys. by rewrite bool_decide_eq_true_2.
  - rewrite Hsum, sum_values_fromkeys, <-size_dom. done.
Qed.

(** The dangling branch. *)
Lemma transition_model_dangling :
  links = ∅ →
  ∃ dist, transition_model corpus page d = Ok dist ∧
    dom dist = dom corpus ∧
    (∀ q, q ∈ dom corpus → dist !! q = Some ((1 - d) / N + d / N)) ∧
    sum_values dist = N * ((1 - d) / N) + N * (d / N).
Proof.
  intros He. unfold transition_model.
  rewrite (pydiv_nat (1 - d)) by apply corpus_size_ne_0. simpl.
  rewrite (getitem_Some _ _ _ Hpage). simpl.
  rewrite bool_decide_eq_false_2 by (by intros []).
  rewrite (for_each_ext _ (add_at (d / N))); last first.
  { intros k s. by rewrite pydiv_nat by apply corpus_size_ne_0. }
  set (dist0 := fromkeys (dom corpus) ((1 - d) / N)).
  destruct (for_each_add_at (d / N) (keys dist0) dist0)
    as (dist & Hrun & Hdom & Hlook & Hsum).
  { apply NoDup_keys. }
  { intros k. by rewrite elem_of_keys. }
  exists dist. split; [done|]. unfold dist0 in Hdom. rewrite dom_fromkeys in Hdom.
  split; [done|]. split.
  - intros q Hq. rewrite (Hlook q ((1 - d) / N)).
    + rewrite bool_decide_eq_true_2; [done|].
      apply elem_of_keys. unfold dist0. by rewrite dom_fromkeys.
    + unfold dist0. rewrite lookup_fromkeys. by rewrite bool_decide_eq_true_2.
  - rewrite Hsum, length_keys. unfold dist0.
    rewrite sum_values_fromkeys, <-!size_dom, dom_fromkeys. done.
Qed.

Lemma transition_model_Ok :
  ∃ dist, transition_model corpus page d = Ok dist ∧ dom dist = dom corpus.
Proof.
  destruct (decide (links = ∅)) as [He|Hne].
  - destruct (transition_model_dangling He) as (dist & ? & ? & _). eauto.
  - destruct (transition_model_linked Hne) as (dist & ? & ? & _). eauto.
Qed.

Lemma transition_model_sum (dist : Dict) :
  transition_model corpus page d = Ok dist → sum_values dist = 1.
Proof.
  intros Hrun. pose proof (Qc_of_nat_ne_0 _ corpus_size_ne_0) as HN.
  destruct (decide (links = ∅)) as [He|Hne].
  - destruct (transition_model_dangling He) as (dist' & Hrun' & _ & _ & Hsum).
    rewrite Hrun in Hrun'. injection Hrun' as <-.
    rewrite Hsum, !Qcdiv_mult_cancel by done. ring.
  - destruct (transition_model_linked Hne) as (dist' & Hrun' & _ & _ & Hsum).
    rewrite Hrun in Hrun'. injection Hrun' as <-.
    pose proof (Qc_of_nat_ne_0 _ (links_size_ne_0 Hne)) as HL.
    rewrite Hsum, !Qcdiv_mult_cancel by done. ring.
Qed.

Lemma transition_model_lower_bound (dist : Dict) (q : string) (v : Qc) :
  0 ≤ d →
  transition_model corpus page d = Ok dist → dist !! q = Some v →
  (1 - d) / N ≤ v.
Proof.
  intros Hd Hrun Hq.
  pose proof (Qc_of_nat_pos _ corpus_size_ne_0) as HN.
  destruct (decide (links = ∅)) as [He|Hne].
  - destruct (transition_model_dangling He) as (dist' & Hrun' & Hdom & Hlook & _).
    rewrite Hrun in Hrun'. injection Hrun' as <-.
    rewrite Hlook in Hq by (rewrite <-Hdom; by eapply elem_of_dom_2).
    injection Hq as <-. pose proof (Qcdiv_nonneg d N Hd HN). qc_lra.
  - destruct (transition_model_linked Hne) as (dist' & Hrun' & Hdom & Hlook & _).
    rewrite Hrun in Hrun'. injection Hrun' as <-.
    rewrite Hlook in Hq by (rewrite <-Hdom; by eapply elem_of_dom_2).
    injection Hq as <-.
    pose proof (Qc_of_nat_pos _ (links_size_ne_0 Hne)) as HL.
    pose proof (Qcdiv_nonneg d L Hd HL). case_bool_decide; qc_lra.
Qed.
End transition_model.

Lemma transition_model_missing_page (corpus : Corpus) (page : string) (d : Qc) :
  corpus !! page = None →
  transition_model corpus page d
  = Raise (if bool_decide (corpus = ∅) then ZeroDivisionError else KeyError).
Proof.
  intros Hpage. unfold transition_model. case_bool_decide as He.
  - subst corpus. by rewrite map_size_empty, Qc_of_nat_0, pydiv_0.
  - rewrite (pydiv_nat (1 - d)) by (by rewrite map_size_empty_iff). simpl.
    by rewrite (getitem_None _ _ Hpage).
Qed.

(** C2: for a graph with at least one page whose links lead to pages of the
    graph, a page [p] of the graph and a damping factor [d] in (0,1),
    [transition_model] returns a distribution over the pages of the graph
    that gives a page [(1 - d)/N + d/L] when [p] has [L ≥ 1] links and the
    page is one of them, [(1 - d)/N] when [p] has links and the page is not
    one of them, and [(1 - d)/N + d/N] when [p] has no links. *)
Theorem transition_model_distribution (corpus : Corpus) (p : string) (d : Qc)
    (links : gset string) :
  (1 ≤ size corpus)%nat →
  corpus !! p = Some links →
  links ⊆ dom corpus →
  0 < d < 1 →
  ∃ dist, transition_model corpus p d = Ok dist ∧
    dom dist = dom corpus ∧
    ∀ q, q ∈ dom corpus →
      (links ≠ ∅ → q ∈ links →
         dist !! q = Some ((1 - d) / Qc_of_nat (size corpus)
                           + d / Qc_of_nat (size links))) ∧
      (links ≠ ∅ → q ∉ links →
         dist !! q = Some ((1 - d) / Qc_of_nat (size corpus))) ∧
      (links = ∅ →
         dist !! q = Some ((1 - d) / Qc_of_nat (size corpus)
                           + d / Qc_of_nat (size corpus))).
Proof.
  intros _ Hp Hlinks _. destruct (decide (links = ∅)) as [He|Hne].
  - destruct (transition_model_dangling corpus p d links Hp He)
      as (dist & Hrun & Hdom & Hlook & _).
    exists dist. repeat split; try done. intros _. by apply Hlook.
  - destruct (transition_model_linked corpus p d links Hp Hlinks Hne)
      as (dist & Hrun & Hdom & Hlook & _).
    exists dist. split; [done|]. split; [done|]. intros q Hq.
    specialize (Hlook q Hq). repeat split; try done.
    + intros _ Hin. by rewrite bool_decide_eq_true_2 in Hlook.
    + intros _ Hnin. by rewrite bool_decide_eq_false_2 in Hlook.
Qed.

Lemma transition_model_distribution_witness :
  ∃ dist, transition_model corpus3 "2.html" DAMPING = Ok dist ∧
    dom dist = dom corpus3 ∧
    ∀ q, q ∈ dom corpus3 →
      (({[ "1.html"; "3.html" ]} : gset string) ≠ ∅ →
       q ∈ ({[ "1.html"; "3.html" ]} : gset string) →
         dist !! q = Some ((1 - DAMPING) / Qc_of_nat (size corpus3)
                           + DAMPING / Qc_of_nat (size ({[ "1.html"; "3.html" ]} : gset string)))) ∧
      (({[ "1.html"; "3.html" ]} : gset string) ≠ ∅ →
       q ∉ ({[ "1.html"; "3.html" ]} : gset string) →
         dist !! q = Some ((1 - DAMPING) / Qc_of_nat (size corpus3))) ∧
      (({[ "1.html"; "3.html" ]} : gset string) = ∅ →
         dist !! q = Some ((1 - DAMPING) / Qc_of_nat (size corpus3)
                           + DAMPING / Qc_of_nat (size corpus3))).
Proof.
  apply (transition_model_distribution corpus3 "2.html" DAMPING
           {[ "1.html"; "3.html" ]}).
  - vm_compute. lia.
  - reflexivity.
  - compute_done.
  - split; reflexivity.
Defined.

(** C7: for a graph whose links lead to pages of the graph, a page [p] of
    the graph and a damping factor [d] in (0,1), the values of the
    distribution that [transition_model] returns sum to 1, whether [p] has
    links or not. *)
Theorem transition_model_sums_to_1 (corpus : Corpus) (p : string) (d : Qc)
    (links : gset string) :
  corpus !! p = Some links →
  links ⊆ dom corpus →
  0 < d < 1 →
  ∃ dist, transition_model corpus p d = Ok dist ∧ sum_values dist = 1.
Proof.
  intros Hp Hlinks _.
  destruct (transition_model_Ok corpus p d links Hp Hlinks) as (dist & Hrun & _).
  exists dist. split; [done|]. by eapply transition_model_sum.
Qed.

Lemma transition_model_sums_to_1_witness :
  (∃ dist, transition_model corpus3 "2.html" DAMPING = Ok dist ∧
     sum_values dist = 1) ∧
  (∃ dist, transition_model corpusAB "A" DAMPING = Ok dist ∧
     sum_values dist = 1).
Proof.
  split.
  - apply (transition_model_sums_to_1 corpus3 "2.html" DAMPING
             {[ "1.html"; "3.html" ]}); [reflexivity | compute_done | split; reflexivity].
  - apply (transition_model_sums_to_1 corpusAB "A" DAMPING ∅);
      [reflexivity | compute_done | split; reflexivity].
Defined.

(** C10: for a graph with at least one page whose links lead to pages of the
    graph, a page [p] of the graph and [0 < d < 1], every value of the
    distribution that [transition_model] returns is at least [(1 - d)/N],
    which is positive. *)
Theorem transition_model_positive (corpus : Corpus) (p : string) (d : Qc)
    (links : gset string) :
  (1 ≤ size corpus)%nat →
  corpus !! p = Some links →
  links ⊆ dom corpus →
  0 < d < 1 →
  ∃ dist, transition_model corpus p d = Ok dist ∧
    ∀ q, q ∈ dom corpus →
      ∃ v, dist !! q = Some v ∧
           (1 - d) / Qc_of_nat (size corpus) ≤ v ∧ 0 < v.
Proof.
  intros HN Hp Hlinks [Hd0 Hd1].
  destruct (transition_model_Ok corpus p d links Hp Hlinks) as (dist & Hrun & Hdom).
  exists dist. split; [done|]. intros q Hq.
  rewrite <-Hdom in Hq. apply elem_of_dom in Hq as [v Hv].
  exists v. split; [done|].
  assert ((1 - d) / Qc_of_nat (size corpus) ≤ v) as Hle.
  { eapply transition_model_lower_bound; eauto. by apply Qclt_le_weak. }
  split; [done|]. eapply Qclt_le_trans; [|exact Hle].
  apply Qcdiv_pos; [qc_lra|]. apply Qc_of_nat_pos. lia.
Qed.

Lemma transition_model_positive_witness :
  ∃ dist, transition_model corpusAB "B" DAMPING = Ok dist ∧
    ∀ q, q ∈ dom corpusAB →
      ∃ v, dist !! q = Some v ∧
           (1 - DAMPING) / Qc_of_nat (size corpusAB) ≤ v ∧ 0 < v.
Proof.
  apply (transition_model_positive corpusAB "B" DAMPING {[ "A" ]}).
  - vm_compute. lia.
  - reflexivity.
  - compute_done.
  - split; reflexivity.
Defined.

(** C5, as the code has it: a page that is not a key of the graph makes
    [transition_model] raise, whatever the damping factor ([KeyError], or
    [ZeroDivisionError] when the graph has no page at all); the damping
    factor is never checked: for a key [p] whose links lead to pages of the
    graph and for every [d], inside (0,1) or not, the function returns the
    distribution computed with [d] as it is given: [(1 - d)/N + d/L] for
    the [L ≥ 1] linked pages and [(1 - d)/N] for the others, or
    [(1 - d)/N + d/N] for every page when [p] has no links. *)
Theorem transition_model_input_errors (corpus : Corpus) (p : string) (d : Qc) :
  (corpus !! p = None →
     transition_model corpus p d
     = Raise (if bool_decide (corpus = ∅) then ZeroDivisionError else KeyError)) ∧
  (∀ links, corpus !! p = Some links → links ⊆ dom corpus →
     ∃ dist, transition_model corpus p d = Ok dist ∧ dom dist = dom corpus ∧
       ∀ q, q ∈ dom corpus →
         dist !! q
         = Some (if bool_decide (links ≠ ∅) then
                   if bool_decide (q ∈ links)
                   then (1 - d) / Qc_of_nat (size corpus)
                        + d / Qc_of_nat (size links)
                   else (1 - d) / Qc_of_nat (size corpus)
                 else (1 - d) / Qc_of_nat (size corpus)
                      + d / Qc_of_nat (size corpus))).
Proof.
  split.
  - apply transition_model_missing_page.
  - intros links Hp Hlinks. destruct (decide (links = ∅)) as [He|Hne].
    + destruct (transition_model_dangling corpus p d links Hp He)
        as (dist & Hrun & Hdom & Hlook & _).
      exists dist. split; [done|]. split; [done|]. intros q Hq.
      rewrite bool_decide_eq_false_2 by (by intros []). by apply Hlook.
    + destruct (transition_model_linked corpus p d links Hp Hlinks Hne)
        as (dist & Hrun & Hdom & Hlook & _).
      exists dist. split; [done|]. split; [done|]. intros q Hq.
      rewrite bool_decide_eq_true_2 by done. by apply Hlook.
Qed.

Lemma transition_model_input_errors_witness :
  transition_model corpusAB "C" 2 = Raise KeyError ∧
  ∃ dist, transition_model corpusAB "B" 2 = Ok dist ∧ dom dist = dom corpusAB ∧
    ∀ q, q ∈ dom corpusAB →
      dist !! q
      = Some (if bool_decide (({[ "A" ]} : gset string) ≠ ∅) then
                if bool_decide (q ∈ ({[ "A" ]} : gset string))
                then (1 - 2) / Qc_of_nat (size corpusAB)
                     + 2 / Qc_of_nat (size ({[ "A" ]} : gset string))
                else (1 - 2) / Qc_of_nat (size corpusAB)
              else (1 - 2) / Qc_of_nat (size corpusAB)
                   + 2 / Qc_of_nat (size corpusAB)).
Proof.
  split.
  - apply (proj1 (transition_model_input_errors corpusAB "C" 2)). reflexivity.
  - apply (proj2 (transition_model_input_errors corpusAB "B" 2) {[ "A" ]}).
    + reflexivity.
    + compute_done.
Defined.

(** C5 as stated fails: the damping factor 2 is not in (0,1), and
    [transition_model] returns a distribution computed with it, which gives
    the page ["B"] the mass -1/2. *)
Lemma transition_model_damping_unchecked :
  ¬ (0 < 2 < 1) ∧
  transition_model corpusAB "B" 2
  = Ok {[ "A" := Q2Qc (3 # 2); "B" := Q2Qc (-1 # 2) ]}.
Proof.
  split.
  - intros [_ H21]. by vm_compute in H21.
  - compute_done.
Qed.

(** ** One round of [iterate_pagerank] *)

Section round.
Context (corpus : Corpus) (d : Qc).

Local Abbreviation N := (size corpus).

Lemma rank_of_Some (rank : Dict) (q : string) (v : Qc) :
  rank !! q = Some v → rank_of rank q = v.
Proof. unfold rank_of. by intros ->. Qed.

Lemma linker_step_Ok (rank : Dict) (p q : string) (total : Qc) :
  N ≠ 0%nat → q ∈ dom corpus → q ∈ dom rank →
  linker_step corpus d N rank p q total
  = Ok (total + weight corpus d p q * rank_of rank q).
Proof.
  intros HN [links Hq]%elem_of_dom [v Hv]%elem_of_dom.
  unfold linker_step, weight. rewrite (getitem_Some _ _ _ Hq), Hq. simpl.
  rewrite (rank_of_Some _ _ _ Hv).
  destruct (bool_decide (p ∈ links) || bool_decide (size links = 0%nat));
    [|f_equal; ring].
  rewrite (getitem_Some _ _ _ Hv). simpl.
  assert ((if bool_decide (size links ≠ 0%nat) then size links else N) ≠ 0%nat)
    as Hlc by (by case_bool_decide).
  rewrite pydiv_nat by done. simpl. f_equal.
  apply Qc_of_nat_ne_0 in Hlc. by field.
Qed.

Lemma linker_loop (rank : Dict) (p : string) (l : list string) (total : Qc) :
  N ≠ 0%nat → (∀ q, q ∈ l → q ∈ dom corpus ∧ q ∈ dom rank) →
  for_each l (linker_step corpus d N rank p) total
  = Ok (total + Qcsum ((λ q, weight corpus d p q * rank_of rank q) <$> l)).
Proof.
  intros HN. revert total.
  induction l as [|q l IH]; intros total Hl; csimpl.
  - f_equal. ring.
  - destruct (Hl q) as [Hq1 Hq2]; [left|].
    rewrite linker_step_Ok by done. simpl.
    rewrite IH by (intros q' Hq'; apply Hl; by right). f_equal. ring.
Qed.

Lemma page_step_Ok (rank new_rank : Dict) (p : string) :
  N ≠ 0%nat → dom rank = dom corpus →
  page_step corpus d N rank p new_rank
  = Ok (<[p := new_rank_of corpus d rank p]> new_rank).
Proof.
  intros HN Hdom. unfold page_step. rewrite pydiv_nat by done. simpl.
  rewrite linker_loop; [done..|].
  intros q Hq%elem_of_keys. by rewrite Hdom.
Qed.

Lemma update_ranks_Ok (rank new_rank : Dict) :
  N ≠ 0%nat → dom rank = dom corpus → dom new_rank = dom corpus →
  update_ranks corpus d N rank new_rank = Ok (next_rank corpus d rank).
Proof.
  intros HN Hdom Hnew. unfold update_ranks.
  assert (∀ l m, ∃ m',
    for_each l (page_step corpus d N rank) m = Ok m' ∧
    ∀ k, m' !! k = if bool_decide (k ∈ l)
                   then Some (new_rank_of corpus d rank k) else m !! k)
    as Hloop.
  { induction l as [|p l IH]; intros m.
    - exists m. split; [done|]. intros k.
      rewrite bool_decide_eq_false_2; [done|]. apply not_elem_of_nil.
    - destruct (IH (<[p := new_rank_of corpus d rank p]> m)) as (m' & Hrun & Hm').
      exists m'. simpl. rewrite page_step_Ok by done. split; [done|].
      intros k. rewrite Hm'. destruct (decide (k = p)) as [->|Hne].
      + rewrite lookup_insert_eq, (bool_decide_eq_true_2 (p ∈ p :: l)) by left.
        by case_bool_decide.
      + rewrite lookup_insert_ne by done.
        rewrite (bool_decide_ext (k ∈ p :: l) (k ∈ l)); [done|].
        rewrite elem_of_cons. naive_solver. }
  destruct (Hloop (keys rank) new_rank) as (m' & -> & Hm'). f_equal.
  apply map_eq. intros k. rewrite Hm'. unfold next_rank. rewrite map_lookup_imap.
  case_bool_decide as Hk.
  - apply elem_of_keys, elem_of_dom in Hk as [v ->]. done.
  - rewrite elem_of_keys in Hk.
    rewrite (not_elem_of_dom_1 rank k Hk). simpl.
    apply not_elem_of_dom. by rewrite Hnew, <-Hdom.
Qed.

Lemma dom_next_rank (rank : Dict) : dom (next_rank corpus d rank) = dom rank.
Proof.
  apply set_eq. intros k. unfold next_rank.
  rewrite !elem_of_dom, map_lookup_imap.
  destruct (rank !! k); simpl; split; intros [? ?]; eauto; discriminate.
Qed.

Lemma lookup_next_rank (rank : Dict) (p : string) :
  p ∈ dom rank →
  next_rank corpus d rank !! p = Some (new_rank_of corpus d rank p).
Proof.
  intros [v Hv]%elem_of_dom. unfold next_rank.
  by rewrite map_lookup_imap, Hv.
Qed.

Lemma rank_of_next_rank (rank : Dict) (p : string) :
  p ∈ dom rank →
  rank_of (next_rank corpus d rank) p = new_rank_of corpus d rank p.
Proof. intros Hp. apply rank_of_Some. by apply lookup_next_rank. Qed.

(** The total that the inner loop builds is the recurrence of the
    specification. *)
Lemma new_rank_of_recurrence (rank : Dict) (p : string) :
  N ≠ 0%nat → new_rank_of corpus d rank p = recurrence corpus d rank p.
Proof.
  intros HN. unfold new_rank_of, recurrence, keys.
  rewrite <-Qcplus_assoc. f_equal.
  assert (Forall (λ ql, corpus !! ql.1 = Some ql.2) (map_to_list corpus)) as Hall.
  { apply Forall_lookup. intros i [q links] Hi. simpl.
    apply elem_of_map_to_list. by eapply list_elem_of_lookup_2. }
  induction Hall as [|[q links] l Hq _ IH]; csimpl.
  - rewrite ?filter_nil. csimpl. ring.
  - simpl in Hq. rewrite IH. unfold weight at 1. rewrite Hq.
    apply Qc_of_nat_ne_0 in HN.
    destruct (decide (p ∈ links)) as [Hin|Hnin].
    + assert (size links ≠ 0%nat) as HL.
      { intros Hz. apply size_empty_iff in Hz. set_solver. }
      rewrite (filter_cons_True (λ ql, p ∈ ql.2)) by done.
      rewrite (filter_cons_False (λ ql, size ql.2 = 0%nat)) by done.
      rewrite (bool_decide_eq_true_2 _ Hin), (bool_decide_eq_true_2 _ HL).
      csimpl. apply Qc_of_nat_ne_0 in HL. by field.
    + rewrite (filter_cons_False (λ ql, p ∈ ql.2)) by done.
      rewrite (bool_decide_eq_false_2 _ Hnin). simpl.
      destruct (decide (size links = 0%nat)) as [Hz|HL].
      * rewrite (filter_cons_True (λ ql, size ql.2 = 0%nat)) by done.
        rewrite (bool_decide_eq_true_2 _ Hz).
        rewrite bool_decide_eq_false_2 by (by intros []).
        csimpl. by field.
      * rewrite (filter_cons_False (λ ql, size ql.2 = 0%nat)) by done.
        rewrite (bool_decide_eq_false_2 _ HL). ring.
Qed.
End round.

(** ** The loop of [iterate_pagerank] *)

Lemma py_all_forallb {A} (l : list A) (test : A → result bool) (f : A → bool) :
  (∀ x, x ∈ l → test x = Ok (f x)) → py_all l test = Ok (forallb f l).
Proof.
  induction l as [|x l IH]; intros Ht; simpl; [done|].
  rewrite (Ht x) by left. simpl. destruct (f x); simpl; [|done].
  apply IH. intros y Hy. apply Ht. by right.
Qed.

Lemma close_enoughb_spec (rank new_rank : Dict) :
  close_enoughb rank new_rank = true ↔ close_enough rank new_rank.
Proof.
  unfold close_enoughb, close_enough. rewrite forallb_forall. split.
  - intros Hall p Hp. apply elem_of_keys, list_elem_of_In in Hp.
    by apply Hall, bool_decide_eq_true_1 in Hp.
  - intros Hall p Hp. apply bool_decide_eq_true_2, Hall, elem_of_keys.
    by apply list_elem_of_In.
Qed.

Lemma converged_Ok (rank new_rank : Dict) :
  dom new_rank = dom rank →
  converged rank new_rank = Ok (close_enoughb rank new_rank).
Proof.
  intros Hdom. unfold converged, close_enoughb. apply py_all_forallb.
  intros p Hp%elem_of_keys.
  assert (p ∈ dom new_rank) as [a Ha]%elem_of_dom by (by rewrite Hdom).
  apply elem_of_dom in Hp as [b Hb].
  rewrite (getitem_Some _ _ _ Ha), (getitem_Some _ _ _ Hb). simpl.
  by rewrite (rank_of_Some _ _ _ Ha), (rank_of_Some _ _ _ Hb).
Qed.

Section loop.
Context (corpus : Corpus) (d : Qc).
Hypothesis HN : size corpus ≠ 0%nat.

Local Abbreviation N := (size corpus).

(** One round of the loop: it stops with the vector it started from, or
    goes on with the vector it has computed. *)
Lemma iterate_loop_S (fuel : nat) (rank new_rank : Dict) :
  dom rank = dom corpus → dom new_rank = dom corpus →
  iterate_loop (S fuel) corpus d N rank new_rank
  = if close_enoughb rank (next_rank corpus d rank) then Some (Ok rank)
    else iterate_loop fuel corpus d N (next_rank corpus d rank)
                      (next_rank corpus d rank).
Proof.
  intros Hrank Hnew. simpl. rewrite update_ranks_Ok by done.
  rewrite converged_Ok by apply dom_next_rank. done.
Qed.

Lemma dom_rank_after (k : nat) : dom (rank_after k corpus d) = dom corpus.
Proof.
  induction k as [|k IH]; simpl; [apply dom_fromkeys|].
  by rewrite dom_next_rank.
Qed.

(** The loop started from the vector of round [j] stops at the first
    round [k ≥ j] whose test holds, with the vector of round [k]. *)
Lemma iterate_loop_first (j k fuel : nat) (new_rank : Dict) :
  (j ≤ k)%nat → dom new_rank = dom corpus →
  (∀ i, (j ≤ i < k)%nat →
     ¬ close_enough (rank_after i corpus d) (rank_after (S i) corpus d)) →
  close_enough (rank_after k corpus d) (rank_after (S k) corpus d) →
  iterate_loop fuel corpus d N (rank_after j corpus d) new_rank
  = if bool_decide (k - j < fuel)%nat then Some (Ok (rank_after k corpus d))
    else None.
Proof.
  intros Hjk Hnew Hnot Hclose. revert j new_rank Hjk Hnew Hnot.
  induction fuel as [|fuel IH]; intros j new_rank Hjk Hnew Hnot.
  { rewrite bool_decide_eq_false_2 by lia. done. }
  rewrite iterate_loop_S by (done || apply dom_rank_after).
  destruct (decide (j = k)) as [->|Hne].
  - apply close_enoughb_spec in Hclose. simpl in Hclose. rewrite Hclose.
    rewrite bool_decide_eq_true_2 by lia. done.
  - assert (close_enoughb (rank_after j corpus d)
              (next_rank corpus d (rank_after j corpus d)) = false) as ->.
    { apply not_true_is_false. rewrite close_enoughb_spec.
      apply (Hnot j). lia. }
    change (next_rank corpus d (rank_after j corpus d))
      with (rank_after (S j) corpus d).
    rewrite IH; [|lia|apply dom_rank_after|intros i Hi; apply Hnot; lia].
    rewrite (bool_decide_ext (k - S j < fuel)%nat (k - j < S fuel)%nat); [done|lia].
Qed.
End loop.

Lemma iterate_pagerank_loop (fuel : nat) (corpus : Corpus) (d : Qc) :
  size corpus ≠ 0%nat →
  iterate_pagerank fuel corpus d
  = iterate_loop fuel corpus d (size corpus) (rank_after 0 corpus d)
                 (fromkeys (dom corpus) 0).
Proof. intros HN. unfold iterate_pagerank. by rewrite pydiv_nat. Qed.

Lemma iterate_pagerank_empty (fuel : nat) (d : Qc) :
  iterate_pagerank fuel ∅ d = Some (Raise ZeroDivisionError).
Proof. reflexivity. Qed.

(** C1: a round of [iterate_pagerank] that starts with the rank vector
    [rank] (and with any contents of [new_rank] left by the rounds before)
    computes a vector [new_rank] over the pages of the corpus in which every
    page [p] has the value [(1 - d)/N + d * (sum over the pages q that link
    to p of rank(q)/outdegree(q)) + d * (sum over the dangling pages q of
    rank(q)/N)], every [rank(q)] being read in [rank], the vector of the
    round before; the loop then stops or starts the next round with
    [new_rank] as its rank vector. *)
Theorem round_computes_recurrence (corpus : Corpus) (d : Qc)
    (rank new_rank0 : Dict) :
  (1 ≤ size corpus)%nat →
  dom rank = dom corpus →
  dom new_rank0 = dom corpus →
  ∃ new_rank,
    update_ranks corpus d (size corpus) rank new_rank0 = Ok new_rank ∧
    dom new_rank = dom corpus ∧
    (∀ p, p ∈ dom corpus → new_rank !! p = Some (recurrence corpus d rank p)) ∧
    (∀ fuel,
       iterate_loop (S fuel) corpus d (size corpus) rank new_rank0
       = if close_enoughb rank new_rank then Some (Ok rank)
         else iterate_loop fuel corpus d (size corpus) new_rank new_rank).
Proof.
  intros HN Hrank Hnew. assert (size corpus ≠ 0%nat) as HN' by lia.
  exists (next_rank corpus d rank). split; [by apply update_ranks_Ok|].
  split; [by rewrite dom_next_rank|]. split.
  - intros p Hp. rewrite lookup_next_rank by (by rewrite Hrank).
    by rewrite new_rank_of_recurrence.
  - intros fuel. by apply iterate_loop_S.
Qed.

Lemma round_computes_recurrence_witness :
  ∃ new_rank,
    update_ranks corpusAB DAMPING (size corpusAB)
      (rank_after 1 corpusAB DAMPING) (rank_after 1 corpusAB DAMPING)
    = Ok new_rank ∧
    dom new_rank = dom corpusAB ∧
    (∀ p, p ∈ dom corpusAB →
       new_rank !! p
       = Some (recurrence corpusAB DAMPING (rank_after 1 corpusAB DAMPING) p)) ∧
    (∀ fuel,
       iterate_loop (S fuel) corpusAB DAMPING (size corpusAB)
         (rank_after 1 corpusAB DAMPING) (rank_after 1 corpusAB DAMPING)
       = if close_enoughb (rank_after 1 corpusAB DAMPING) new_rank
         then Some (Ok (rank_after 1 corpusAB DAMPING))
         else iterate_loop fuel corpusAB DAMPING (size corpusAB) new_rank new_rank).
Proof.
  apply (round_computes_recurrence corpusAB DAMPING).
  - vm_compute. lia.
  - compute_done.
  - compute_done.
Defined.

(** C3, as the code has it: when round [k + 1] is the first round whose
    new vector differs from the vector it started from by less than
    [convergence_threshold] on every page, [iterate_pagerank] stops in that
    round (it needs [k + 1] units of fuel and no more) and returns the
    vector that the round started from, [rank_after k], not the vector
    [rank_after (S k)] that the round has computed. *)
Theorem iterate_pagerank_stops (corpus : Corpus) (d : Qc) (k : nat) :
  (1 ≤ size corpus)%nat →
  (∀ i, (i < k)%nat →
     ¬ close_enough (rank_after i corpus d) (rank_after (S i) corpus d)) →
  close_enough (rank_after k corpus d) (rank_after (S k) corpus d) →
  (∀ new_rank0, dom new_rank0 = dom corpus →
     update_ranks corpus d (size corpus) (rank_after k corpus d) new_rank0
     = Ok (rank_after (S k) corpus d)) ∧
  ∀ fuel,
    iterate_pagerank fuel corpus d
    = if bool_decide (k < fuel)%nat then Some (Ok (rank_after k corpus d))
      else None.
Proof.
  intros HN Hnot Hclose. assert (size corpus ≠ 0%nat) as HN' by lia. split.
  - intros new_rank0 Hnew. simpl. apply update_ranks_Ok; [done| |done].
    by apply dom_rank_after.
  - intros fuel. rewrite iterate_pagerank_loop by done.
    rewrite (iterate_loop_first corpus d HN' 0 k); try done.
    + rewrite (bool_decide_ext (k - 0 < fuel)%nat (k < fuel)%nat); [done|lia].
    + lia.
    + apply dom_fromkeys.
    + intros i Hi. apply Hnot. lia.
Qed.

Lemma iterate_pagerank_stops_witness :
  (∀ new_rank0, dom new_rank0 = dom corpusAB →
     update_ranks corpusAB DAMPING (size corpusAB)
       (rank_after 7 corpusAB DAMPING) new_rank0
     = Ok (rank_after 8 corpusAB DAMPING)) ∧
  ∀ fuel,
    iterate_pagerank fuel corpusAB DAMPING
    = if bool_decide (7 < fuel)%nat
      then Some (Ok (rank_after 7 corpusAB DAMPING)) else None.
Proof.
  apply (iterate_pagerank_stops corpusAB DAMPING 7).
  - vm_compute. lia.
  - intros i Hi. rewrite <-close_enoughb_spec.
    do 7 (destruct i as [|i]; [by vm_compute|]). lia.
  - apply close_enoughb_spec. by vm_compute.
Defined.

(** C3 as stated fails: with the corpus [{"A": set(), "B": {"A"}}] and the
    damping factor 0.85 the loop stops in round 8; that round computes the
    vector [rank_after 8] from [rank_after 7], the test holds between the
    two, and the function returns [rank_after 7], which is another vector. *)
Lemma iterate_pagerank_returns_previous_vector :
  update_ranks corpusAB DAMPING 2 (rank_after 7 corpusAB DAMPING)
    (rank_after 7 corpusAB DAMPING)
  = Ok (rank_after 8 corpusAB DAMPING) ∧
  converged (rank_after 7 corpusAB DAMPING) (rank_after 8 corpusAB DAMPING)
  = Ok true ∧
  iterate_pagerank 8 corpusAB DAMPING = Some (Ok (rank_after 7 corpusAB DAMPING)) ∧
  rank_after 7 corpusAB DAMPING ≠ rank_after 8 corpusAB DAMPING.
Proof.
  split; [compute_done|]. split; [compute_done|]. split; [compute_done|].
  compute_done.
Qed.

(** ** Conservation of mass *)

Lemma Qcdiv_le_1 (x y : Qc) : x ≤ y → 0 < y → x / y ≤ 1.
Proof.
  intros Hxy Hy. assert (y * (x / y) = x) as Hq.
  { apply Qcdiv_mult_cancel. intros ->. by apply Qclt_not_eq in Hy. }
  revert Hq. generalize (x / y). intros q Hq. qc_nra.
Qed.

Lemma weight_nonneg (corpus : Corpus) (d : Qc) (p q : string) :
  0 ≤ d → 0 ≤ weight corpus d p q.
Proof.
  intros Hd. unfold weight. destruct (corpus !! q) as [links|]; [|done].
  destruct (_ || _); [|done].
  destruct (decide (Qc_of_nat (if bool_decide (size links ≠ 0%nat)
                               then size links else size corpus) = 0)) as [->|Hne].
  - unfold Qcdiv. replace (/ 0) with 0 by (by apply Qc_is_canon).
    by rewrite Qcmult_0_r.
  - apply Qcdiv_nonneg; [done|].
    pose proof (Qc_of_nat_nonneg
      (if bool_decide (size links ≠ 0%nat) then size links else size corpus)).
    qc_lra.
Qed.

(** The links of a page of a closed corpus are counted by the test
    [page in corpus[q]] over the pages of the corpus. *)
Lemma filter_keys_links (corpus : Corpus) (links : gset string) :
  links ⊆ dom corpus →
  length (filter (λ p, p ∈ links) (keys corpus)) = size links.
Proof.
  intros Hsub. unfold size, set_size. simpl. apply Permutation_length.
  apply NoDup_Permutation.
  - apply list.NoDup_filter, NoDup_keys.
  - apply NoDup_elements.
  - intros p. rewrite list_elem_of_filter, elem_of_keys, elem_of_elements.
    set_solver.
Qed.

Section conservation.
Context (corpus : Corpus) (d : Qc).
Hypothesis Hclosed : closed_corpus corpus.
Hypothesis HN : size corpus ≠ 0%nat.

(** Every page hands out the share [d] of its rank, in all. *)
Lemma weight_column_sum (q : string) :
  q ∈ dom corpus → Qcsum ((λ p, weight corpus d p q) <$> keys corpus) = d.
Proof.
  intros [links Hq]%elem_of_dom. pose proof (Hclosed q links Hq) as Hsub.
  pose proof (Qc_of_nat_ne_0 _ HN) as HN'.
  destruct (decide (size links = 0%nat)) as [Hz|HL].
  - rewrite (Qcsum_fmap_ext _ (λ _, d / Qc_of_nat (size corpus))).
    + rewrite Qcsum_fmap_const, length_keys. by field.
    + intros p _. unfold weight. rewrite Hq, (bool_decide_eq_true_2 _ Hz).
      rewrite orb_true_r. by rewrite bool_decide_eq_false_2 by (by intros []).
  - rewrite (Qcsum_fmap_ext _
      (λ p, if bool_decide (p ∈ links) then d / Qc_of_nat (size links) else 0)).
    + rewrite Qcsum_fmap_filter, filter_keys_links by done.
      apply Qc_of_nat_ne_0 in HL. by field.
    + intros p _. unfold weight. rewrite Hq, (bool_decide_eq_false_2 _ HL).
      rewrite orb_false_r. by rewrite (bool_decide_eq_true_2 _ HL).
Qed.

Lemma sum_rank_of (rank : Dict) :
  dom rank = dom corpus →
  Qcsum (rank_of rank <$> keys corpus) = sum_values rank.
Proof.
  intros Hdom. rewrite (sum_values_keys rank (rank_of rank)).
  - by rewrite (keys_Permutation rank corpus).
  - intros k v Hk. by rewrite (rank_of_Some _ _ _ Hk).
Qed.

Lemma sum_values_next_rank (rank : Dict) :
  dom rank = dom corpus →
  sum_values (next_rank corpus d rank) = 1 - d + d * sum_values rank.
Proof.
  intros Hdom. pose proof (Qc_of_nat_ne_0 _ HN) as HN'.
  rewrite (sum_values_keys _ (new_rank_of corpus d rank)); last first.
  { intros k v Hk. assert (k ∈ dom rank) as Hin.
    { rewrite <-(dom_next_rank corpus d). by eapply elem_of_dom_2. }
    rewrite lookup_next_rank in Hk by done. congruence. }
  rewrite (keys_Permutation _ corpus) by (by rewrite dom_next_rank).
  unfold new_rank_of. rewrite Qcsum_fmap_plus, Qcsum_fmap_const, length_keys.
  rewrite Qcsum_exchange.
  rewrite (Qcsum_fmap_ext _ (λ q, d * rank_of rank q)).
  - rewrite Qcsum_fmap_mult, sum_rank_of by done. by field.
  - intros q Hq%elem_of_keys.
    trans (Qcsum ((λ p, weight corpus d p q) <$> keys corpus) * rank_of rank q).
    + rewrite Qcmult_comm, <-Qcsum_fmap_mult. apply Qcsum_fmap_ext.
      intros p _. ring.
    + by rewrite weight_column_sum.
Qed.

Lemma new_rank_of_nonneg (rank : Dict) (p : string) :
  0 ≤ d ≤ 1 → (∀ q v, rank !! q = Some v → 0 ≤ v) →
  0 ≤ new_rank_of corpus d rank p.
Proof.
  intros [Hd0 Hd1] Hpos. unfold new_rank_of.
  apply Qcplus_nonneg_nonneg.
  - apply Qcdiv_nonneg; [qc_lra|]. by apply Qc_of_nat_pos.
  - apply Qcsum_fmap_nonneg. intros q _.
    apply Qcmult_nonneg_nonneg; [by apply weight_nonneg|].
    unfold rank_of. destruct (rank !! q) as [v|] eqn:Hq; simpl; [eauto|done].
Qed.

Lemma value_le_sum (rank : Dict) (p : string) (v : Qc) :
  (∀ q w, rank !! q = Some w → 0 ≤ w) →
  rank !! p = Some v → v ≤ sum_values rank.
Proof.
  intros Hpos Hp. unfold sum_values. apply Qcsum_elem_le.
  - apply Forall_fmap, Forall_lookup. intros i [q w] Hi. simpl.
    apply (Hpos q), elem_of_map_to_list. by eapply list_elem_of_lookup_2.
  - apply list_elem_of_fmap. exists (p, v). split; [done|].
    by apply elem_of_map_to_list.
Qed.

Lemma rank_vector_initial : rank_vector corpus (rank_after 0 corpus d).
Proof.
  pose proof (Qc_of_nat_pos _ HN) as Hpos. simpl. split; [|split].
  - apply dom_fromkeys.
  - intros p v. rewrite lookup_fromkeys. case_bool_decide; [|done].
    intros [= <-]. split.
    + apply Qcdiv_nonneg; [done | done].
    + apply Qcdiv_le_1; [|done].
      replace 1 with (Qc_of_Z 1) by (by apply Qc_is_canon).
      apply Qc_of_Z_le. lia.
  - rewrite sum_values_fromkeys, size_dom.
    apply Qc_of_nat_ne_0 in HN. by field.
Qed.

Lemma rank_vector_next (rank : Dict) :
  0 ≤ d ≤ 1 → rank_vector corpus rank →
  rank_vector corpus (next_rank corpus d rank).
Proof.
  intros Hd (Hdom & Hval & Hsum).
  assert (sum_values (next_rank corpus d rank) = 1) as Hsum'.
  { rewrite sum_values_next_rank, Hsum by done. ring. }
  assert (∀ q w, next_rank corpus d rank !! q = Some w → 0 ≤ w) as Hpos.
  { intros q w Hq. assert (q ∈ dom rank) as Hin.
    { rewrite <-(dom_next_rank corpus d). by eapply elem_of_dom_2. }
    rewrite lookup_next_rank in Hq by done. injection Hq as <-.
    apply new_rank_of_nonneg; [done|]. intros q' v Hq'. by apply (Hval q'). }
  split; [by rewrite dom_next_rank|]. split; [|done].
  intros p v Hp. split; [by eapply Hpos|].
  rewrite <-Hsum'. by eapply value_le_sum.
Qed.

Lemma rank_vector_rank_after (k : nat) :
  0 ≤ d ≤ 1 → rank_vector corpus (rank_after k corpus d).
Proof.
  intros Hd. induction k as [|k IH]; [apply rank_vector_initial|].
  simpl. by apply rank_vector_next.
Qed.
End conservation.

(** ** Absolute values *)

Lemma Qcabs_nonneg (x : Qc) : 0 ≤ Qcabs x.
Proof. unfold Qcabs. case_bool_decide; qc_lra. Qed.

Lemma Qcabs_triangle (x y : Qc) : Qcabs (x + y) ≤ Qcabs x + Qcabs y.
Proof. unfold Qcabs. repeat case_bool_decide; qc_lra. Qed.

Lemma Qcabs_mult_nonneg (c x : Qc) : 0 ≤ c → Qcabs (c * x) = c * Qcabs x.
Proof. intros Hc. unfold Qcabs. repeat case_bool_decide; qc_nra. Qed.

Lemma Qcabs_sum {A} (f : A → Qc) (l : list A) :
  Qcabs (Qcsum (f <$> l)) ≤ Qcsum ((λ x, Qcabs (f x)) <$> l).
Proof.
  induction l as [|x l IH]; csimpl.
  - unfold Qcabs. by case_bool_decide.
  - eapply Qcle_trans; [apply Qcabs_triangle|].
    by apply Qcplus_le_compat.
Qed.

(** ** The recurrence is a contraction *)

Section contraction.
Context (corpus : Corpus) (d : Qc).
Hypothesis Hclosed : closed_corpus corpus.
Hypothesis HN : size corpus ≠ 0%nat.
Hypothesis Hd : 0 ≤ d.

Lemma new_rank_of_diff (rank rank' : Dict) (p : string) :
  new_rank_of corpus d rank' p - new_rank_of corpus d rank p
  = Qcsum ((λ q, weight corpus d p q * (rank_of rank' q - rank_of rank q))
           <$> keys corpus).
Proof.
  unfold new_rank_of.
  rewrite (Qcsum_fmap_ext
    (λ q, weight corpus d p q * (rank_of rank' q - rank_of rank q))
    (λ q, weight corpus d p q * rank_of rank' q
          + (-(1)) * (weight corpus d p q * rank_of rank q)))
    by (intros; ring).
  rewrite Qcsum_fmap_plus, Qcsum_fmap_mult. ring.
Qed.

Lemma distance_next_rank (rank rank' : Dict) :
  dom rank = dom corpus → dom rank' = dom corpus →
  distance corpus (next_rank corpus d rank) (next_rank corpus d rank')
  ≤ d * distance corpus rank rank'.
Proof.
  intros Hdom Hdom'. unfold distance.
  eapply Qcle_trans.
  { apply (Qcsum_fmap_le _
      (λ p, Qcsum ((λ q, weight corpus d p q
                         * Qcabs (rank_of rank' q - rank_of rank q))
                   <$> keys corpus))).
    intros p Hp%elem_of_keys.
    rewrite !rank_of_next_rank by congruence.
    rewrite new_rank_of_diff.
    eapply Qcle_trans; [apply Qcabs_sum|].
    apply Qcsum_fmap_le. intros q _.
    rewrite Qcabs_mult_nonneg by (by apply weight_nonneg). done. }
  rewrite Qcsum_exchange, <-Qcsum_fmap_mult.
  apply Qcsum_fmap_le. intros q Hq%elem_of_keys.
  rewrite (Qcsum_fmap_ext _
    (λ p, Qcabs (rank_of rank' q - rank_of rank q) * weight corpus d p q))
    by (intros; ring).
  rewrite Qcsum_fmap_mult, weight_column_sum by done.
  rewrite Qcmult_comm. done.
Qed.

Lemma distance_nonneg (rank rank' : Dict) : 0 ≤ distance corpus rank rank'.
Proof. apply Qcsum_fmap_nonneg. intros p _. apply Qcabs_nonneg. Qed.

(** A round whose vectors are nearer than the threshold passes the test. *)
Lemma distance_close_enough (rank : Dict) :
  dom rank = dom corpus →
  distance corpus rank (next_rank corpus d rank) < convergence_threshold →
  close_enough rank (next_rank corpus d rank).
Proof.
  intros Hdom Hdist p Hp. eapply Qcle_lt_trans; [|exact Hdist].
  unfold distance. apply Qcsum_elem_le.
  - apply Forall_fmap, Forall_lookup. intros i q _. apply Qcabs_nonneg.
  - apply list_elem_of_fmap. exists p. split; [done|].
    apply elem_of_keys. by rewrite <-Hdom.
Qed.
End contraction.

(** ** Termination of the loop *)

Lemma Qc_archimedean (x : Qc) : ∃ n : nat, x < Qc_of_nat n.
Proof.
  destruct x as [[a b] Hc]. exists (Z.to_nat (Z.max 0 a + 1)).
  unfold Qclt, Qc_of_nat. simpl. unfold Qlt. simpl.
  rewrite Z2Nat.id by lia. nia.
Qed.

Lemma Qcpower_S (d : Qc) (n : nat) : d ^ S n = d * d ^ n.
Proof. reflexivity. Qed.

Lemma Qcpower_le_1 (d : Qc) (n : nat) : 0 ≤ d ≤ 1 → d ^ n ≤ 1.
Proof.
  intros [Hd0 Hd1]. induction n as [|n IH]; [done|].
  rewrite Qcpower_S. pose proof (Qcpower_pos d n Hd0). qc_nra.
Qed.

(** Bernoulli's inequality, for the inverse [1 + t] of [d]. *)
Lemma Qcpower_bernoulli (d t : Qc) (n : nat) :
  0 ≤ d ≤ 1 → 0 ≤ t → d * (1 + t) = 1 →
  d ^ n * (1 + Qc_of_nat n * t) ≤ 1.
Proof.
  intros Hd Ht Hdt. induction n as [|n IH].
  - rewrite Qc_of_nat_0. simpl. qc_lra.
  - rewrite Qcpower_S, Qc_of_nat_S.
    pose proof (Qcpower_le_1 d n Hd) as Hle.
    pose proof (Qcpower_pos d n (proj1 Hd)) as Hpos.
    destruct Hd as [Hd0 Hd1].
    revert IH Hle Hpos. generalize (d ^ n) (Qc_of_nat n). intros P k IH Hle Hpos.
    assert (d * P * t ≤ d * t) as H1 by qc_nra.
    assert (d * (P * (1 + k * t)) ≤ d) as H2 by qc_nra.
    qc_nra.
Qed.

(** The powers of a factor below one become as small as one likes. *)
Lemma Qcpower_small (d c ε : Qc) :
  0 ≤ d < 1 → 0 < ε → ∃ m : nat, d ^ m * c < ε.
Proof.
  intros [Hd0 Hd1] Hε.
  destruct (decide (d = 0)) as [->|Hdne].
  { exists 1%nat. simpl. qc_lra. }
  assert (0 < d) as Hd by qc_lra.
  set (t := (1 - d) / d).
  assert (0 < t) as Ht by (apply Qcdiv_pos; [qc_lra | done]).
  assert (d * (1 + t) = 1) as Hdt by (unfold t; by field).
  assert (0 < ε * t) as Hεt by (by apply Qcmult_pos_pos).
  destruct (Qc_archimedean (c / (ε * t))) as [n Hn].
  assert (c < Qc_of_nat n * (ε * t)) as Hc.
  { apply (Qcmult_lt_mono_pos_r _ _ (ε * t)) in Hn; [|done].
    replace (c / (ε * t) * (ε * t)) with c in Hn; [done|].
    field. split; intros Hz; rewrite Hz in *; [by apply Qclt_not_eq in Ht | by apply Qclt_not_eq in Hε]. }
  exists n.
  pose proof (Qcpower_bernoulli d t n (conj Hd0 (Qclt_le_weak _ _ Hd1))
                (Qclt_le_weak _ _ Ht) Hdt) as Hb.
  pose proof (Qcpower_pos d n Hd0) as Hpos.
  pose proof (Qc_of_nat_nonneg n) as Hk.
  revert Hb Hpos Hc Hk. generalize (d ^ n) (Qc_of_nat n). intros P k Hb Hpos Hc Hk.
  destruct (decide (P = 0)) as [->|HP]; [qc_lra|].
  assert (0 < P) as HP' by qc_lra.
  assert (P * c < P * (k * (ε * t))) as H1 by (by apply Qcmult_lt_mono_pos_l).
  assert (0 ≤ ε * (1 - P * (1 + k * t))) as H2.
  { apply Qcmult_nonneg_nonneg; qc_lra. }
  qc_nra.
Qed.

Section termination.
Context (corpus : Corpus) (d : Qc).
Hypothesis Hclosed : closed_corpus corpus.
Hypothesis HN : size corpus ≠ 0%nat.
Hypothesis Hd : 0 ≤ d < 1.

Local Abbreviation r := (λ k, rank_after k corpus d).

(** The loop stops as soon as the distance between two successive vectors,
    which shrinks by the factor [d] in every round, is below the
    threshold. *)
Lemma iterate_loop_terminates (m k : nat) (new_rank : Dict) :
  dom new_rank = dom corpus →
  d ^ m * distance corpus (r k) (r (S k)) < convergence_threshold →
  ∃ fuel j, iterate_loop fuel corpus d (size corpus) (r k) new_rank
            = Some (Ok (r j)).
Proof.
  destruct Hd as [Hd0 Hd1].
  revert k new_rank. induction m as [|m IH]; intros k new_rank Hnew Hdist.
  - exists 1%nat, k. rewrite iterate_loop_S by (done || by apply dom_rank_after).
    assert (close_enoughb (r k) (next_rank corpus d (r k)) = true) as ->; [|done].
    apply close_enoughb_spec, distance_close_enough.
    + by apply dom_rank_after.
    + simpl in Hdist. by rewrite Qcmult_1_l in Hdist.
  - destruct (close_enoughb (r k) (next_rank corpus d (r k))) eqn:Hc.
    + exists 1%nat, k.
      rewrite iterate_loop_S by (done || by apply dom_rank_after).
      by rewrite Hc.
    + destruct (IH (S k) (r (S k))) as (fuel & j & Hrun).
      * by apply dom_rank_after.
      * eapply Qcle_lt_trans; [|exact Hdist].
        rewrite Qcpower_S, (Qcmult_comm d), <-Qcmult_assoc.
        apply Qcmult_le_mono_nonneg_l; [by apply Qcpower_pos|].
        apply distance_next_rank; try done; by apply dom_rank_after.
      * exists (S fuel), j.
        rewrite iterate_loop_S by (done || by apply dom_rank_after).
        by rewrite Hc.
Qed.

Lemma iterate_pagerank_terminates :
  ∃ fuel k, iterate_pagerank fuel corpus d = Some (Ok (r k)).
Proof.
  destruct (Qcpower_small d (distance corpus (r 0%nat) (r 1%nat)) convergence_threshold)
    as [m Hm]; [done..|].
  destruct (iterate_loop_terminates m 0%nat (fromkeys (dom corpus) 0))
    as (fuel & j & Hrun); [apply dom_fromkeys | done |].
  exists fuel, j. by rewrite iterate_pagerank_loop.
Qed.
End termination.

(** Whatever the fuel, the loop returns one of the vectors [rank_after k]. *)
Lemma iterate_loop_result (corpus : Corpus) (d : Qc) (fuel k : nat)
    (new_rank result : Dict) :
  size corpus ≠ 0%nat → dom new_rank = dom corpus →
  iterate_loop fuel corpus d (size corpus) (rank_after k corpus d) new_rank
  = Some (Ok result) →
  ∃ j, result = rank_after j corpus d.
Proof.
  intros HN. revert k new_rank.
  induction fuel as [|fuel IH]; intros k new_rank Hnew Hrun; [done|].
  rewrite iterate_loop_S in Hrun by (done || by apply dom_rank_after).
  destruct (close_enoughb _ _).
  - injection Hrun as <-. by exists k.
  - apply (IH (S k) (rank_after (S k) corpus d)); [|done].
    by apply dom_rank_after.
Qed.

(** C6: for a corpus with at least one page whose links lead to pages of
    the corpus and a damping factor in (0,1), the vectors that give every
    page of the corpus a value in [0,1] and sum to 1 contain the initial
    vector of [iterate_pagerank] (every page at [1/N]) and are preserved by
    every round; the function does return (with enough fuel), and whatever
    it returns is such a vector. *)
Theorem iterate_pagerank_rank_vector (corpus : Corpus) (d : Qc) :
  (1 ≤ size corpus)%nat →
  closed_corpus corpus →
  0 < d < 1 →
  rank_vector corpus (fromkeys (dom corpus) (1 / Qc_of_nat (size corpus))) ∧
  (∀ rank new_rank0,
     rank_vector corpus rank → dom new_rank0 = dom corpus →
     ∃ new_rank,
       update_ranks corpus d (size corpus) rank new_rank0 = Ok new_rank ∧
       rank_vector corpus new_rank) ∧
  (∃ fuel result, iterate_pagerank fuel corpus d = Some (Ok result)) ∧
  (∀ fuel result,
     iterate_pagerank fuel corpus d = Some (Ok result) →
     rank_vector corpus result).
Proof.
  intros HN Hclosed [Hd0 Hd1]. assert (size corpus ≠ 0%nat) as HN' by lia.
  assert (0 ≤ d ≤ 1) as Hd by (split; by apply Qclt_le_weak).
  split; [|split; [|split]].
  - by apply (rank_vector_initial corpus d).
  - intros rank new_rank0 Hrank Hnew. exists (next_rank corpus d rank).
    split; [|by apply rank_vector_next].
    apply update_ranks_Ok; [done| |done]. by destruct Hrank.
  - destruct (iterate_pagerank_terminates corpus d Hclosed HN')
      as (fuel & k & Hrun); [split; [by apply Qclt_le_weak | done]|].
    eauto.
  - intros fuel result Hrun. rewrite iterate_pagerank_loop in Hrun by done.
    apply iterate_loop_result in Hrun as [j ->]; [|done|apply dom_fromkeys].
    by apply rank_vector_rank_after.
Qed.

Lemma iterate_pagerank_rank_vector_witness :
  rank_vector corpusAB (fromkeys (dom corpusAB) (1 / Qc_of_nat (size corpusAB))) ∧
  (∀ rank new_rank0,
     rank_vector corpusAB rank → dom new_rank0 = dom corpusAB →
     ∃ new_rank,
       update_ranks corpusAB DAMPING (size corpusAB) rank new_rank0 = Ok new_rank ∧
       rank_vector corpusAB new_rank) ∧
  (∃ fuel result, iterate_pagerank fuel corpusAB DAMPING = Some (Ok result)) ∧
  (∀ fuel result,
     iterate_pagerank fuel corpusAB DAMPING = Some (Ok result) →
     rank_vector corpusAB result).
Proof.
  apply (iterate_pagerank_rank_vector corpusAB DAMPING).
  - vm_compute. lia.
  - compute_done.
  - split; reflexivity.
Defined.

(** ** The example random source *)

Lemma bisect_elem (population : list string) (weights : list Qc) (cum x : Qc)
    (last : string) :
  bisect population weights cum x last ∈ last :: population.
Proof.
  revert weights cum last.
  induction population as [|p population IH]; intros weights cum last; simpl.
  - left.
  - destruct weights as [|w weights]; [left|].
    case_bool_decide; [right; left|].
    right. apply IH.
Qed.

#[global] Instance example_source_laws : RandomSourceLaws nat.
Proof.
  split.
  - intros [|x l] g Hl; [done|]. eexists _, _. split; [done|].
    set (l' := x :: l). apply list_elem_of_In, nth_In.
    apply Nat.mod_upper_bound. done.
  - intros [|p population] weights g Hp Hlen Hsum; [done|].
    exists (bisect (p :: population) weights 0
              (Qc_of_nat (g mod 1000) / Qc_of_nat 1000 * Qcsum weights) p),
           (next_state g).
    split.
    + unfold random_choices, example_source.
      rewrite bool_decide_eq_false_2 by (intros Hne; by apply Hne).
      by rewrite bool_decide_eq_false_2 by (by apply Qclt_not_le).
    + pose proof (bisect_elem (p :: population) weights 0
        (Qc_of_nat (g mod 1000) / Qc_of_nat 1000 * Qcsum weights) p) as Hin.
      apply elem_of_cons in Hin as [Heq|Hin]; [rewrite Heq; left | done].
Qed.

(** ** [sample_pagerank] *)

Lemma normalise_Ok (n : Z) (k : string) (m : Dict) (v : Qc) :
  Qc_of_Z n ≠ 0 → m !! k = Some v →
  normalise n k m = Ok (<[k := v / Qc_of_Z n]> m).
Proof.
  intros Hn Hk. unfold normalise. rewrite (getitem_Some _ _ _ Hk). simpl.
  by rewrite pydiv_Ok.
Qed.

Lemma for_each_normalise (n : Z) (l : list string) (m : Dict) :
  Qc_of_Z n ≠ 0 → NoDup l → (∀ k, k ∈ l → k ∈ dom m) →
  ∃ m', for_each l (normalise n) m = Ok m' ∧
    ∀ k, m' !! k
         = (λ v, if bool_decide (k ∈ l) then v / Qc_of_Z n else v) <$> m !! k.
Proof.
  intros Hn Hnd. revert m.
  induction Hnd as [|k l Hk Hnd IH]; intros m Hdom.
  - exists m. split; [done|]. intros k.
    destruct (m !! k); simpl; [|done].
    by rewrite ?bool_decide_eq_false_2 by apply not_elem_of_nil.
  - assert (k ∈ dom m) as [v Hv]%elem_of_dom by (apply Hdom; left).
    destruct (IH (<[k := v / Qc_of_Z n]> m)) as (m' & Hrun & Hlook).
    { intros k' Hk'. rewrite dom_insert_L. apply elem_of_union_r, Hdom. by right. }
    exists m'. split.
    + simpl. by rewrite (normalise_Ok _ _ _ _ Hn Hv).
    + intros q. rewrite Hlook. destruct (decide (q = k)) as [->|Hne].
      * rewrite lookup_insert_eq, Hv. simpl.
        rewrite bool_decide_eq_false_2 by done.
        by rewrite bool_decide_eq_true_2 by left.
      * rewrite lookup_insert_ne by done.
        rewrite (bool_decide_ext (q ∈ k :: l) (q ∈ l)); [done|].
        rewrite elem_of_cons. naive_solver.
Qed.

Lemma for_each_normalise_keys (n : Z) (m : Dict) :
  Qc_of_Z n ≠ 0 →
  for_each (keys m) (normalise n) m = Ok ((λ v, v / Qc_of_Z n) <$> m).
Proof.
  intros Hn.
  destruct (for_each_normalise n (keys m) m Hn) as (m' & -> & Hlook).
  { apply NoDup_keys. }
  { intros k. by rewrite elem_of_keys. }
  f_equal. apply map_eq. intros k. rewrite Hlook, lookup_fmap.
  destruct (m !! k) as [v|] eqn:Hk; simpl; [|done].
  rewrite bool_decide_eq_true_2; [done|].
  apply elem_of_keys. by eapply elem_of_dom_2.
Qed.

Lemma sum_values_fmap (f : Qc → Qc) (m : Dict) :
  sum_values (f <$> m) = Qcsum (f <$> values m).
Proof.
  unfold sum_values, values. rewrite map_to_list_fmap.
  rewrite <-!list_fmap_compose. f_equal.
Qed.

Lemma sum_values_div (c : Qc) (m : Dict) :
  sum_values ((λ v, v / c) <$> m) = sum_values m / c.
Proof.
  rewrite sum_values_fmap.
  rewrite (Qcsum_fmap_ext _ (λ v, / c * v)) by (intros; unfold Qcdiv; ring).
  rewrite Qcsum_fmap_mult, list_fmap_id, sum_values_values.
  unfold Qcdiv. ring.
Qed.

Section counted.
Context (pages : gset string).

Lemma counted_dom (k : nat) (counts : gmap string nat) :
  counted pages k counts → dom counts = pages.
Proof.
  induction 1 as [|k counts p c _ IH Hp]; [apply dom_fromkeys|].
  rewrite dom_insert_L, IH. apply elem_of_dom_2 in Hp. set_solver.
Qed.

Lemma counted_sum (k : nat) (counts : gmap string nat) :
  counted pages k counts → sum_values (Qc_of_nat <$> counts) = Qc_of_nat k.
Proof.
  induction 1 as [|k counts p c _ IH Hp].
  - unfold fromkeys. rewrite fmap_gset_to_gmap.
    etrans; [apply (sum_values_fromkeys pages (Qc_of_nat 0))|].
    rewrite !Qc_of_nat_0. ring.
  - rewrite fmap_insert.
    rewrite (sum_values_update _ _ (Qc_of_nat c)) by (by rewrite lookup_fmap, Hp).
    rewrite IH, !Qc_of_nat_S. ring.
Qed.

Lemma counted_initial :
  (fromkeys pages 0 : Dict) = Qc_of_nat <$> fromkeys pages 0%nat.
Proof. unfold fromkeys. by rewrite fmap_gset_to_gmap, Qc_of_nat_0. Qed.
End counted.

Section walk.
Context {G : Type} `{RandomSourceLaws G}.
Context (corpus : Corpus) (d : Qc).
Hypothesis Hclosed : closed_corpus corpus.

(** One step: the counter of the current page goes up by one, and the
    next page is a page of the corpus. *)
Lemma sample_step_Ok (counts : gmap string nat) (sample : string) (c : nat)
    (g : G) :
  dom counts = dom corpus → counts !! sample = Some c →
  ∃ sample' g',
    sample_step corpus d (Qc_of_nat <$> counts, sample, g)
    = Ok (Qc_of_nat <$> <[sample := S c]> counts, sample', g') ∧
    sample' ∈ dom corpus.
Proof.
  intros Hdom Hc. unfold sample_step.
  rewrite (add_at_Ok 1 sample _ (Qc_of_nat c)) by (by rewrite lookup_fmap, Hc).
  simpl.
  assert (sample ∈ dom corpus) as [links Hlinks]%elem_of_dom.
  { rewrite <-Hdom. by eapply elem_of_dom_2. }
  destruct (transition_model_Ok corpus sample d links Hlinks
              (Hclosed _ _ Hlinks)) as (dist & Hdist & Hdd).
  rewrite Hdist. simpl.
  destruct (random_choices_elem (keys dist) (values dist) g)
    as (sample' & g' & Hch & Hin).
  - rewrite keys_nil. intros ->. rewrite dom_empty_L in Hdd.
    symmetry in Hdd. apply dom_empty_inv_L in Hdd. by rewrite Hdd in Hlinks.
  - by rewrite length_keys, length_values.
  - rewrite <-sum_values_values.
    rewrite (transition_model_sum corpus sample d links Hlinks
               (Hclosed _ _ Hlinks) dist Hdist). done.
  - exists sample', g'. rewrite Hch. simpl. split.
    + rewrite fmap_insert, Qc_of_nat_S, (Qcplus_comm 1). done.
    + apply elem_of_keys in Hin. by rewrite <-Hdd.
Qed.

(** The loop: one step for every element of the range. *)
Lemma sample_loop (l : list Z) (k : nat) (counts : gmap string nat)
    (sample : string) (g : G) :
  counted (dom corpus) k counts → sample ∈ dom corpus →
  ∃ counts' sample' g',
    for_each l (λ _, sample_step corpus d) (Qc_of_nat <$> counts, sample, g)
    = Ok (Qc_of_nat <$> counts', sample', g') ∧
    counted (dom corpus) (k + length l) counts' ∧
    sample' ∈ dom corpus.
Proof.
  revert k counts sample g.
  induction l as [|x l IH]; intros k counts sample g Hcounted Hsample.
  - exists counts, sample, g. simpl. by rewrite Nat.add_0_r.
  - pose proof (counted_dom _ _ _ Hcounted) as Hdom.
    assert (sample ∈ dom counts) as [c Hc]%elem_of_dom by (by rewrite Hdom).
    destruct (sample_step_Ok counts sample c g Hdom Hc)
      as (sample1 & g1 & Hstep & Hsample1).
    destruct (IH (S k) (<[sample := S c]> counts) sample1 g1)
      as (counts' & sample' & g' & Hrun & Hcounted' & Hsample').
    { by constructor. }
    { done. }
    exists counts', sample', g'. split; [|split; [|done]].
    + cbn [for_each]. rewrite Hstep. exact Hrun.
    + simpl length. by rewrite Nat.add_succ_r.
Qed.
End walk.

Lemma length_range (n : Z) : length (range n) = Z.to_nat n.
Proof. unfold range. by rewrite length_fmap, length_seq. Qed.

(** A run of the body of the loop is a step of the walk. *)
Lemma sample_step_inv {G : Type} `{RandomSource G} (corpus : Corpus) (d : Qc)
    (pagerank : Dict) (sample : string) (g : G) (w : walk) :
  sample_step corpus d (pagerank, sample, g) = Ok w →
  ∃ c distribution sample' g',
    pagerank !! sample = Some c ∧
    transition_model corpus sample d = Ok distribution ∧
    random_choices (keys distribution) (values distribution) g = Ok (sample', g') ∧
    w = (<[sample := c + 1]> pagerank, sample', g').
Proof.
  unfold sample_step, add_at. intros Hstep.
  destruct (pagerank !! sample) as [c|] eqn:Hc.
  - rewrite (getitem_Some _ _ _ Hc) in Hstep. simpl in Hstep.
    destruct (transition_model corpus sample d) as [distribution|e] eqn:Hd;
      [|done].
    simpl in Hstep.
    destruct (random_choices (keys distribution) (values distribution) g)
      as [[sample' g']|e] eqn:Hch; [|done].
    simpl in Hstep. injection Hstep as <-. by exists c, distribution, sample', g'.
  - by rewrite (getitem_None _ _ Hc) in Hstep.
Qed.

(** The loop of [sample_pagerank] makes one step of the walk for every
    element of the range. *)
Lemma for_each_sample_steps {G : Type} `{RandomSource G} (corpus : Corpus)
    (d : Qc) (l : list Z) (w w' : walk) :
  for_each l (λ _, sample_step corpus d) w = Ok w' →
  walk_steps corpus d (length l) w w'.
Proof.
  revert w. induction l as [|x l IH]; intros w Hrun.
  - injection Hrun as <-. constructor.
  - cbn [for_each] in Hrun. apply bind_Ok_inv in Hrun as (w1 & Hstep & Hrun).
    destruct w as [[pagerank sample] g].
    apply sample_step_inv in Hstep as (c & dist & sample' & g' & ? & ? & ? & ->).
    simpl. eapply walk_steps_S; eauto.
Qed.

(** C4: for a corpus with at least one page whose links lead to pages of
    the corpus and a sample count [n ≥ 1], [sample_pagerank] draws a first
    page and makes exactly [n] steps of the walk from there, each of which
    adds one to the counter of the current page and to no other; its result
    gives every page the counter it has after these [n] steps divided by
    [n], so every value is a multiple of [1/n] and the values sum to 1. *)
Theorem sample_pagerank_counts {G : Type} `{RandomSourceLaws G}
    (corpus : Corpus) (d : Qc) (n : Z) (g : G) :
  (1 ≤ size corpus)%nat →
  closed_corpus corpus →
  (1 ≤ n)%Z →
  ∃ sample0 g0 counts sample_n g_n ranks,
    random_choice (keys corpus) g = Ok (sample0, g0) ∧
    walk_steps corpus d (Z.to_nat n)
      (fromkeys (dom corpus) 0, sample0, g0)
      (Qc_of_nat <$> counts, sample_n, g_n) ∧
    sample_pagerank corpus d n g = Ok (ranks, g_n) ∧
    counted (dom corpus) (Z.to_nat n) counts ∧
    dom ranks = dom corpus ∧
    (∀ p, ranks !! p = (λ c, Qc_of_nat c / Qc_of_Z n) <$> counts !! p) ∧
    (∀ p v, ranks !! p = Some v → ∃ c : nat, v = Qc_of_nat c * (1 / Qc_of_Z n)) ∧
    sum_values ranks = 1.
Proof.
  intros HN Hclosed Hn.
  assert (Qc_of_Z n ≠ 0) as Hn0.
  { intros Hz. assert (0 < Qc_of_Z n) as Hlt.
    { replace 0 with (Qc_of_Z 0) by (by apply Qc_is_canon).
      apply Qc_of_Z_lt. lia. }
    rewrite Hz in Hlt. by apply Qclt_not_eq in Hlt. }
  unfold sample_pagerank.
  destruct (random_choice_elem (keys corpus) g) as (sample & g0 & Hch & Hin).
  { rewrite keys_nil. intros ->. rewrite map_size_empty in HN. lia. }
  rewrite Hch. simpl. apply elem_of_keys in Hin.
  destruct (sample_loop corpus d Hclosed (range n) 0 (fromkeys (dom corpus) 0%nat)
              sample g0) as (counts & sample' & g' & Hrun & Hcounted & _).
  { constructor. }
  { done. }
  rewrite <-counted_initial in Hrun.
  pose proof (for_each_sample_steps _ _ _ _ _ Hrun) as Hsteps.
  rewrite Hrun. simpl. rewrite for_each_normalise_keys by done. simpl.
  rewrite length_range in Hcounted, Hsteps. simpl in Hcounted.
  exists sample, g0, counts, sample', g',
    ((λ v, v / Qc_of_Z n) <$> (Qc_of_nat <$> counts)).
  split; [done|]. split; [done|]. split; [done|]. split; [done|].
  assert (∀ p, ((λ v, v / Qc_of_Z n) <$> (Qc_of_nat <$> counts)) !! p
               = (λ c, Qc_of_nat c / Qc_of_Z n) <$> counts !! p) as Hlook.
  { intros p. rewrite !lookup_fmap. by destruct (counts !! p). }
  split; [|split; [done|split]].
  - rewrite !dom_fmap_L. by eapply counted_dom.
  - intros p v. rewrite Hlook. destruct (counts !! p) as [c|]; [|done].
    intros [= <-]. exists c. by field.
  - rewrite sum_values_div, (counted_sum _ _ _ Hcounted).
    unfold Qc_of_nat. rewrite Z2Nat.id by lia. by field.
Qed.

Lemma sample_pagerank_counts_witness :
  ∃ sample0 g0 counts sample_n g_n ranks,
    random_choice (keys corpus3) 7%nat = Ok (sample0, g0) ∧
    walk_steps corpus3 DAMPING (Z.to_nat 5)
      (fromkeys (dom corpus3) 0, sample0, g0)
      (Qc_of_nat <$> counts, sample_n, g_n) ∧
    sample_pagerank corpus3 DAMPING 5 7%nat = Ok (ranks, g_n) ∧
    counted (dom corpus3) (Z.to_nat 5) counts ∧
    dom ranks = dom corpus3 ∧
    (∀ p, ranks !! p = (λ c, Qc_of_nat c / Qc_of_Z 5) <$> counts !! p) ∧
    (∀ p v, ranks !! p = Some v → ∃ c : nat, v = Qc_of_nat c * (1 / Qc_of_Z 5)) ∧
    sum_values ranks = 1.
Proof.
  apply (sample_pagerank_counts corpus3 DAMPING 5 7%nat).
  - vm_compute. lia.
  - compute_done.
  - lia.
Defined.

(** ** [crawl] *)

Section crawl_properties.
Context (findall : string → list string).

Local Abbreviation pages_of := (extract_links findall).

Lemma extract_links_snoc (directory : list (string * string))
    (filename contents : string) :
  pages_of (directory ++ [(filename, contents)])
  = if negb (endswith filename ".html") then pages_of directory
    else <[filename := list_to_set (findall contents) ∖ {[filename]}]>
           (pages_of directory).
Proof. unfold extract_links. by rewrite foldl_app. Qed.

(** After the first loop no page links to itself. *)
Lemma extract_links_no_self (directory : list (string * string))
    (k : string) (links : gset string) :
  pages_of directory !! k = Some links → k ∉ links.
Proof.
  revert links.
  induction directory as [|[filename contents] directory IH] using rev_ind;
    intros links.
  - done.
  - rewrite extract_links_snoc. destruct (negb _); [apply IH|].
    destruct (decide (filename = k)) as [->|Hne].
    + rewrite lookup_insert_eq. intros [= <-]. set_solver.
    + rewrite lookup_insert_ne by done. apply IH.
Qed.

(** The entry of an HTML file of a directory without repeated names. *)
Lemma extract_links_lookup (directory : list (string * string))
    (k contents : string) :
  NoDup directory.*1 → (k, contents) ∈ directory →
  endswith k ".html" = true →
  pages_of directory !! k = Some (list_to_set (findall contents) ∖ {[k]}).
Proof.
  intros Hnd Hin Hk.
  induction directory as [|[filename contents'] directory IH] using rev_ind.
  - by apply elem_of_nil in Hin.
  - rewrite fmap_app in Hnd. apply list.NoDup_app in Hnd as (Hnd & Hfresh & _).
    rewrite extract_links_snoc.
    apply elem_of_app in Hin as [Hin|Hin].
    + assert (filename ≠ k) as Hne.
      { intros ->. apply (Hfresh k).
        - apply list_elem_of_fmap. by exists (k, contents).
        - simpl. left. }
      destruct (negb _); [by apply IH|].
      rewrite lookup_insert_ne by done. by apply IH.
    + apply list_elem_of_singleton in Hin. injection Hin as <- <-.
      rewrite Hk. simpl. by rewrite lookup_insert_eq.
Qed.

Lemma restrict_links_Ok (k : string) (pages : Corpus) (links : gset string) :
  pages !! k = Some links →
  restrict_links k pages
  = Ok (<[k := filter (λ link, link ∈ dom pages) links]> pages).
Proof. intros Hk. unfold restrict_links. by rewrite (getitem_Some _ _ _ Hk). Qed.

(** The second loop keeps, for each of the keys in [l], the links that
    are keys. *)
Lemma for_each_restrict_links (l : list string) (pages : Corpus) :
  NoDup l → (∀ k, k ∈ l → k ∈ dom pages) →
  ∃ pages', for_each l restrict_links pages = Ok pages' ∧
    dom pages' = dom pages ∧
    ∀ k, pages' !! k
         = (λ links, if bool_decide (k ∈ l)
                     then filter (λ link, link ∈ dom pages) links
                     else links) <$> pages !! k.
Proof.
  intros Hnd. revert pages.
  induction Hnd as [|k l Hk Hnd IH]; intros pages Hdom.
  - exists pages. repeat split. intros k.
    destruct (pages !! k); simpl; [|done].
    by rewrite ?bool_decide_eq_false_2 by apply not_elem_of_nil.
  - assert (k ∈ dom pages) as [links Hlinks]%elem_of_dom by (apply Hdom; left).
    set (pages1 := <[k := filter (λ link, link ∈ dom pages) links]> pages).
    assert (dom pages1 = dom pages) as Hdom1.
    { unfold pages1. rewrite dom_insert_L. apply elem_of_dom_2 in Hlinks.
      set_solver. }
    destruct (IH pages1) as (pages' & Hrun & Hdom' & Hlook).
    { intros k' Hk'. rewrite Hdom1. apply Hdom. by right. }
    exists pages'. split; [|split].
    + cbn [for_each]. rewrite (restrict_links_Ok _ _ _ Hlinks). exact Hrun.
    + by rewrite Hdom', Hdom1.
    + intros q. rewrite Hlook, Hdom1. unfold pages1.
      destruct (decide (q = k)) as [->|Hne].
      * rewrite lookup_insert_eq, Hlinks. simpl.
        rewrite bool_decide_eq_false_2 by done.
        by rewrite bool_decide_eq_true_2 by left.
      * rewrite lookup_insert_ne by done.
        rewrite (bool_decide_ext (q ∈ k :: l) (q ∈ l)); [done|].
        rewrite elem_of_cons. naive_solver.
Qed.

Lemma crawl_Ok (directory : list (string * string)) :
  ∃ pages, crawl findall directory = Ok pages ∧
    dom pages = dom (pages_of directory) ∧
    ∀ k, pages !! k
         = filter (λ link, link ∈ dom (pages_of directory))
           <$> pages_of directory !! k.
Proof.
  unfold crawl.
  destruct (for_each_restrict_links (keys (pages_of directory))
              (pages_of directory)) as (pages & Hrun & Hdom & Hlook).
  { apply NoDup_keys. }
  { intros k. by rewrite elem_of_keys. }
  exists pages. split; [done|]. split; [done|].
  intros k. rewrite Hlook.
  destruct (pages_of directory !! k) as [links|] eqn:Hk; simpl; [|done].
  rewrite bool_decide_eq_true_2; [done|].
  apply elem_of_keys. by eapply elem_of_dom_2.
Qed.
End crawl_properties.

(** C8: [crawl] returns a graph in which the links of every page are pages
    of the graph and no page links to itself; an HTML file (of a directory
    without repeated names) whose only link target is the file itself is a
    page without links. *)
Theorem crawl_link_graph (findall : string → list string)
    (directory : list (string * string)) :
  ∃ pages, crawl findall directory = Ok pages ∧
    (∀ k links, pages !! k = Some links → links ⊆ dom pages ∧ k ∉ links) ∧
    (∀ k contents,
       NoDup directory.*1 → (k, contents) ∈ directory →
       endswith k ".html" = true →
       (∀ link, link ∈ findall contents → link = k) →
       pages !! k = Some ∅).
Proof.
  destruct (crawl_Ok findall directory) as (pages & Hrun & Hdom & Hlook).
  exists pages. split; [done|]. split.
  - intros k links. rewrite Hlook.
    destruct (extract_links findall directory !! k) as [links0|] eqn:Hk; [|done].
    intros [= <-]. split.
    + intros link [Hin _]%elem_of_filter. by rewrite Hdom.
    + intros [_ Hin]%elem_of_filter.
      by eapply extract_links_no_self.
  - intros k contents Hnd Hin Hk Hself. rewrite Hlook.
    rewrite (extract_links_lookup findall directory k contents) by done.
    simpl. f_equal. apply set_eq. intros link.
    rewrite elem_of_filter, elem_of_difference, elem_of_list_to_set,
      elem_of_singleton.
    split; [|by intros ?%not_elem_of_empty].
    intros (_ & Hl & Hne). by apply Hself in Hl.
Qed.

Lemma crawl_link_graph_witness :
  ∃ pages, crawl words example_directory = Ok pages ∧
    (∀ k links, pages !! k = Some links → links ⊆ dom pages ∧ k ∉ links) ∧
    pages !! "a.html" = Some ∅.
Proof.
  destruct (crawl_link_graph words example_directory)
    as (pages & Hrun & Hgraph & Hself).
  exists pages. split; [done|]. split; [done|].
  apply (Hself "a.html" "a.html").
  - compute_done.
  - compute_done.
  - reflexivity.
  - intros link Hlink. vm_compute in Hlink.
    by apply list_elem_of_singleton in Hlink.
Defined.

(** * Further properties *)

(** ** [transition_model]: links that lead out of the corpus *)

(** [for k in l: d[k] += x] raises [KeyError] as soon as [l] has an element
    that is not a key of [d]. *)
Lemma for_each_add_at_KeyError (x : Qc) (l : list string) (d : Dict) (k : string) :
  k ∈ l → k ∉ dom d → for_each l (add_at x) d = Raise KeyError.
Proof.
  revert d. induction l as [|k' l IH]; intros d Hin Hk.
  - by apply elem_of_nil in Hin.
  - cbn [for_each]. destruct (d !! k') as [v|] eqn:Hk'.
    + rewrite (add_at_Ok _ _ _ _ Hk'). simpl. apply IH.
      * apply elem_of_cons in Hin as [->|Hin]; [|done].
        by apply not_elem_of_dom in Hk; rewrite Hk in Hk'.
      * rewrite dom_insert_L. apply elem_of_dom_2 in Hk'. set_solver.
    + by rewrite (add_at_KeyError _ _ _ Hk').
Qed.

(** X1: when the current page has a link to a page that is not a key of the
    corpus, [transition_model] raises [KeyError], whatever the damping factor
    and however many of its links are keys. *)
Theorem transition_model_link_outside (corpus : Corpus) (page : string) (d : Qc)
    (links : gset string) (link : string) :
  corpus !! page = Some links →
  link ∈ links →
  link ∉ dom corpus →
  transition_model corpus page d = Raise KeyError.
Proof.
  intros Hpage Hlink Hout. unfold transition_model.
  rewrite (pydiv_nat (1 - d)) by (by eapply corpus_size_ne_0). simpl.
  rewrite (getitem_Some _ _ _ Hpage). simpl.
  assert (links ≠ ∅) as Hne by set_solver.
  rewrite bool_decide_eq_true_2 by done.
  rewrite pydiv_nat by (by apply links_size_ne_0). simpl.
  apply (for_each_add_at_KeyError _ _ _ link).
  - by apply elem_of_elements.
  - by rewrite dom_fromkeys.
Qed.

Lemma transition_model_link_outside_witness :
  transition_model {[ "A" := {[ "B"; "Z" ]}; "B" := ∅ ]} "A" DAMPING
  = Raise KeyError.
Proof.
  apply (transition_model_link_outside _ "A" DAMPING {[ "B"; "Z" ]} "Z").
  - reflexivity.
  - compute_done.
  - compute_done.
Defined.

(** X2: the distribution of a page depends on the corpus only through its
    set of pages and the links of that page: the links of the other pages
    are never read. *)
Theorem transition_model_other_links (corpus corpus' : Corpus) (page : string)
    (d : Qc) :
  dom corpus = dom corpus' →
  corpus !! page = corpus' !! page →
  transition_model corpus page d = transition_model corpus' page d.
Proof.
  intros Hdom Hpage. unfold transition_model, getitem.
  rewrite <-!size_dom, Hdom, Hpage. done.
Qed.

Lemma transition_model_other_links_witness :
  transition_model corpusAB "A" DAMPING
  = transition_model {[ "A" := ∅; "B" := ∅ ]} "A" DAMPING.
Proof.
  apply (transition_model_other_links corpusAB {[ "A" := ∅; "B" := ∅ ]}).
  - compute_done.
  - reflexivity.
Defined.

(** ** [sample_pagerank]: sample counts below one *)

Lemma range_nonpos (n : Z) : (n ≤ 0)%Z → range n = [].
Proof. intros Hn. unfold range. by rewrite Z2Nat.nonpos. Qed.

Lemma normalise_0 (page : string) (pagerank : Dict) (v : Qc) :
  pagerank !! page = Some v → normalise 0 page pagerank = Raise ZeroDivisionError.
Proof.
  intros Hv. unfold normalise. rewrite (getitem_Some _ _ _ Hv).
  unfold pydiv. by rewrite bool_decide_eq_true_2 by (by apply Qc_is_canon).
Qed.

(** X3: with the sample count 0 and a corpus that has a page,
    [sample_pagerank] makes no step and raises [ZeroDivisionError] when it
    divides the first counter. *)
Theorem sample_pagerank_no_samples {G : Type} `{RandomSourceLaws G}
    (corpus : Corpus) (d : Qc) (g : G) :
  (1 ≤ size corpus)%nat →
  sample_pagerank corpus d 0 g = Raise ZeroDivisionError.
Proof.
  intros HN. unfold sample_pagerank.
  destruct (random_choice_elem (keys corpus) g) as (sample & g0 & Hch & _).
  { rewrite keys_nil. intros ->. rewrite map_size_empty in HN. lia. }
  rewrite Hch. simpl.
  destruct (keys (fromkeys (dom corpus) (0 : Qc))) as [|page pages] eqn:Hkeys.
  { apply keys_nil in Hkeys. apply (f_equal dom) in Hkeys.
    rewrite dom_fromkeys, dom_empty_L in Hkeys.
    apply dom_empty_inv_L in Hkeys. subst corpus.
    rewrite map_size_empty in HN. lia. }
  assert (page ∈ dom (fromkeys (dom corpus) (0 : Qc))) as [v Hv]%elem_of_dom.
  { apply elem_of_keys. rewrite Hkeys. left. }
  cbn [for_each]. by rewrite (normalise_0 _ _ _ Hv).
Qed.

Lemma sample_pagerank_no_samples_witness :
  sample_pagerank corpus3 DAMPING 0 7%nat = Raise ZeroDivisionError.
Proof.
  apply (sample_pagerank_no_samples corpus3 DAMPING 7%nat).
  vm_compute. lia.
Defined.

(** X4: with a negative sample count and a corpus that has a page,
    [sample_pagerank] makes no step and returns the rank 0 for every page:
    the values do not sum to 1. *)
Theorem sample_pagerank_negative_samples {G : Type} `{RandomSourceLaws G}
    (corpus : Corpus) (d : Qc) (n : Z) (g : G) :
  (1 ≤ size corpus)%nat →
  (n < 0)%Z →
  ∃ ranks g',
    sample_pagerank corpus d n g = Ok (ranks, g') ∧
    dom ranks = dom corpus ∧
    (∀ p, p ∈ dom corpus → ranks !! p = Some 0) ∧
    sum_values ranks = 0.
Proof.
  intros HN Hn. unfold sample_pagerank.
  destruct (random_choice_elem (keys corpus) g) as (sample & g0 & Hch & _).
  { rewrite keys_nil. intros ->. rewrite map_size_empty in HN. lia. }
  rewrite Hch. simpl. rewrite range_nonpos by lia. simpl.
  assert (Qc_of_Z n ≠ 0) as Hn0.
  { intros Hz. replace 0 with (Qc_of_Z 0) in Hz by (by apply Qc_is_canon).
    apply Qc_of_Z_inj in Hz. lia. }
  rewrite for_each_normalise_keys by done. simpl.
  eexists _, _. split; [done|]. split; [|split].
  - by rewrite dom_fmap_L, dom_fromkeys.
  - intros p Hp. rewrite lookup_fmap, lookup_fromkeys.
    rewrite bool_decide_eq_true_2 by done. simpl. f_equal.
    unfold Qcdiv. ring.
  - rewrite sum_values_div, sum_values_fromkeys. unfold Qcdiv. ring.
Qed.

Lemma sample_pagerank_negative_samples_witness :
  ∃ ranks g',
    sample_pagerank corpus3 DAMPING (-3) 7%nat = Ok (ranks, g') ∧
    dom ranks = dom corpus3 ∧
    (∀ p, p ∈ dom corpus3 → ranks !! p = Some 0) ∧
    sum_values ranks = 0.
Proof.
  apply (sample_pagerank_negative_samples corpus3 DAMPING (-3) 7%nat).
  - vm_compute. lia.
  - lia.
Defined.

(** ** [iterate_pagerank]: what it raises and what it returns *)

(** The loop started from the vector of round [k] is still running when the
    fuel is used up, or it has returned the vector of a round [j] that
    passes the test of the loop. *)
Lemma iterate_loop_outcome (corpus : Corpus) (d : Qc) (fuel k : nat)
    (new_rank : Dict) :
  size corpus ≠ 0%nat → dom new_rank = dom corpus →
  iterate_loop fuel corpus d (size corpus) (rank_after k corpus d) new_rank = None ∨
  ∃ j, iterate_loop fuel corpus d (size corpus) (rank_after k corpus d) new_rank
       = Some (Ok (rank_after j corpus d)) ∧
       close_enough (rank_after j corpus d) (rank_after (S j) corpus d).
Proof.
  intros HN. revert k new_rank.
  induction fuel as [|fuel IH]; intros k new_rank Hnew; [by left|].
  rewrite iterate_loop_S by (done || by apply dom_rank_after).
  destruct (close_enoughb _ _) eqn:Hc.
  - right. exists k. split; [done|]. by apply close_enoughb_spec.
  - apply (IH (S k)). by apply (dom_rank_after corpus d (S k)).
Qed.

(** X5: [iterate_pagerank] raises an exception on the empty corpus only, and
    the exception is [ZeroDivisionError]; on a corpus that has a page it
    never raises, also when links lead out of the corpus and whatever the
    damping factor is. *)
Theorem iterate_pagerank_raises (fuel : nat) (corpus : Corpus) (d : Qc) (e : exn) :
  iterate_pagerank fuel corpus d = Some (Raise e)
  ↔ corpus = ∅ ∧ e = ZeroDivisionError.
Proof.
  split.
  - intros Hrun. destruct (decide (corpus = ∅)) as [->|Hne].
    + rewrite iterate_pagerank_empty in Hrun. by injection Hrun as <-.
    + assert (size corpus ≠ 0%nat) as HN by (by rewrite map_size_empty_iff).
      rewrite iterate_pagerank_loop in Hrun by done.
      destruct (iterate_loop_outcome corpus d fuel 0 (fromkeys (dom corpus) 0) HN)
        as [Hnone|(j & Hj & _)]; [apply dom_fromkeys|..];
        simpl in *; congruence.
  - intros [-> ->]. apply iterate_pagerank_empty.
Qed.

(** X6: a vector that [iterate_pagerank] returns has one value per page of
    the corpus and is a fixed point of the recurrence up to the threshold:
    on every page the recurrence, applied to the returned vector, gives a
    value that differs from the returned one by less than 0.001. *)
Theorem iterate_pagerank_fixed_point (fuel : nat) (corpus : Corpus) (d : Qc)
    (ranks : Dict) :
  iterate_pagerank fuel corpus d = Some (Ok ranks) →
  dom ranks = dom corpus ∧
  ∀ p, p ∈ dom corpus →
    Qcabs (recurrence corpus d ranks p - rank_of ranks p) < convergence_threshold.
Proof.
  intros Hrun. destruct (decide (corpus = ∅)) as [->|Hne].
  { by rewrite iterate_pagerank_empty in Hrun. }
  assert (size corpus ≠ 0%nat) as HN by (by rewrite map_size_empty_iff).
  rewrite iterate_pagerank_loop in Hrun by done.
  destruct (iterate_loop_outcome corpus d fuel 0 (fromkeys (dom corpus) 0) HN)
    as [Hnone|(j & Hj & Hclose)]; [apply dom_fromkeys|simpl in *; congruence|].
  simpl in Hj, Hrun. rewrite Hj in Hrun. injection Hrun as <-.
  pose proof (dom_rank_after corpus d j) as Hdom. split; [done|].
  intros p Hp. rewrite <-Hdom in Hp. specialize (Hclose p Hp).
  simpl in Hclose. rewrite rank_of_next_rank in Hclose by done.
  by rewrite new_rank_of_recurrence in Hclose.
Qed.

Lemma iterate_pagerank_fixed_point_witness :
  dom (rank_after 7 corpusAB DAMPING) = dom corpusAB ∧
  ∀ p, p ∈ dom corpusAB →
    Qcabs (recurrence corpusAB DAMPING (rank_after 7 corpusAB DAMPING) p
           - rank_of (rank_after 7 corpusAB DAMPING) p) < convergence_threshold.
Proof.
  apply (iterate_pagerank_fixed_point 8 corpusAB DAMPING).
  compute_done.
Defined.

Lemma iterate_pagerank_raises_witness :
  iterate_pagerank 3 ∅ DAMPING = Some (Raise ZeroDivisionError) ∧
  iterate_pagerank 3 corpusAB DAMPING ≠ Some (Raise KeyError).
Proof.
  split.
  - by apply (proj2 (iterate_pagerank_raises 3 ∅ DAMPING ZeroDivisionError)).
  - intros Hrun.
    by destruct (proj1 (iterate_pagerank_raises 3 corpusAB DAMPING KeyError) Hrun).
Defined.

(** Every rank of every round is at least the random-jump share. *)
Lemma rank_after_lower_bound (corpus : Corpus) (d : Qc) (k : nat) (p : string)
    (v : Qc) :
  size corpus ≠ 0%nat → 0 ≤ d ≤ 1 →
  rank_after k corpus d !! p = Some v →
  (1 - d) / Qc_of_nat (size corpus) ≤ v.
Proof.
  intros HN [Hd0 Hd1]. pose proof (Qc_of_nat_pos _ HN) as HN'.
  assert (0 ≤ (1 - d) / Qc_of_nat (size corpus)) as Hbase.
  { apply Qcdiv_nonneg; [qc_lra | done]. }
  revert p v. induction k as [|k IH]; intros p v Hp.
  - simpl in Hp. rewrite lookup_fromkeys in Hp. case_bool_decide; [|done].
    injection Hp as <-. unfold Qcdiv.
    apply Qcmult_le_mono_nonneg_r; [|qc_lra].
    by apply Qclt_le_weak, Qcinv_pos.
  - simpl in Hp. assert (p ∈ dom (rank_after k corpus d)) as Hin.
    { rewrite <-(dom_next_rank corpus d). by eapply elem_of_dom_2. }
    rewrite lookup_next_rank in Hp by done. injection Hp as <-.
    unfold new_rank_of.
    assert (0 ≤ Qcsum ((λ q, weight corpus d p q
                             * rank_of (rank_after k corpus d) q)
                       <$> keys corpus)) as Hsum.
    { apply Qcsum_fmap_nonneg. intros q _.
      apply Qcmult_nonneg_nonneg; [by apply weight_nonneg|].
      unfold rank_of. destruct (rank_after k corpus d !! q) as [w|] eqn:Hq;
        simpl; [|done].
      eapply Qcle_trans; [exact Hbase | by eapply IH]. }
    qc_lra.
Qed.

(** X7: for a damping factor in [0,1], every rank that [iterate_pagerank]
    returns is at least [(1 - d)/N]: for [d < 1] no page has the rank 0,
    also a page that no page links to. *)
Theorem iterate_pagerank_lower_bound (fuel : nat) (corpus : Corpus) (d : Qc)
    (ranks : Dict) (p : string) (v : Qc) :
  0 ≤ d ≤ 1 →
  iterate_pagerank fuel corpus d = Some (Ok ranks) →
  ranks !! p = Some v →
  (1 - d) / Qc_of_nat (size corpus) ≤ v.
Proof.
  intros Hd Hrun Hp. destruct (decide (corpus = ∅)) as [->|Hne].
  { by rewrite iterate_pagerank_empty in Hrun. }
  assert (size corpus ≠ 0%nat) as HN by (by rewrite map_size_empty_iff).
  rewrite iterate_pagerank_loop in Hrun by done.
  apply iterate_loop_result in Hrun as [j ->]; [|done|apply dom_fromkeys].
  by eapply rank_after_lower_bound.
Qed.

Lemma iterate_pagerank_lower_bound_witness :
  (1 - DAMPING) / Qc_of_nat (size corpusAB)
  ≤ rank_of (rank_after 7 corpusAB DAMPING) "B".
Proof.
  apply (iterate_pagerank_lower_bound 8 corpusAB DAMPING
           (rank_after 7 corpusAB DAMPING) "B").
  - split; reflexivity || (by vm_compute).
  - compute_done.
  - compute_done.
Defined.

(** ** [iterate_pagerank] on a corpus without links *)

Lemma Qcabs_0 : Qcabs 0 = 0.
Proof. unfold Qcabs. by case_bool_decide. Qed.

Lemma close_enough_refl (rank : Dict) : close_enough rank rank.
Proof.
  intros p _. replace (rank_of rank p - rank_of rank p) with 0 by ring.
  by rewrite Qcabs_0.
Qed.

(** When no page has a link, the vector that gives every page [1/N] is a
    fixed point of a round. *)
Lemma next_rank_no_links (corpus : Corpus) (d : Qc) :
  size corpus ≠ 0%nat →
  (∀ p links, corpus !! p = Some links → links = ∅) →
  next_rank corpus d (rank_after 0 corpus d) = rank_after 0 corpus d.
Proof.
  intros HN Hnone. pose proof (Qc_of_nat_ne_0 _ HN) as HN'.
  apply map_eq. intros p. simpl.
  destruct (decide (p ∈ dom corpus)) as [Hp|Hp].
  - rewrite lookup_next_rank by (by rewrite dom_fromkeys).
    rewrite lookup_fromkeys, bool_decide_eq_true_2 by done. f_equal.
    unfold new_rank_of.
    rewrite (Qcsum_fmap_ext _
      (λ _, d / Qc_of_nat (size corpus) * (1 / Qc_of_nat (size corpus)))).
    + rewrite Qcsum_fmap_const, length_keys. by field.
    + intros q Hq%elem_of_keys. f_equal.
      * apply elem_of_dom in Hq as [links Hq]. unfold weight. rewrite Hq.
        rewrite (Hnone q links Hq), size_empty. done.
      * apply rank_of_Some. rewrite lookup_fromkeys.
        by rewrite bool_decide_eq_true_2.
  - rewrite (not_elem_of_dom_1 (next_rank _ _ _) p)
      by (by rewrite dom_next_rank, dom_fromkeys).
    symmetry. apply not_elem_of_dom. by rewrite dom_fromkeys.
Qed.

(** X8: on a corpus with at least one page in which no page has a link,
    [iterate_pagerank] stops in its first round and returns the rank [1/N]
    for every page, whatever the damping factor. *)
Theorem iterate_pagerank_no_links (fuel : nat) (corpus : Corpus) (d : Qc) :
  (1 ≤ size corpus)%nat →
  (∀ p links, corpus !! p = Some links → links = ∅) →
  (1 ≤ fuel)%nat →
  iterate_pagerank fuel corpus d
  = Some (Ok (fromkeys (dom corpus) (1 / Qc_of_nat (size corpus)))).
Proof.
  intros HN Hnone Hfuel. assert (size corpus ≠ 0%nat) as HN' by lia.
  rewrite iterate_pagerank_loop by done.
  destruct fuel as [|fuel]; [lia|].
  rewrite iterate_loop_S; [|done|apply dom_rank_after|apply dom_fromkeys].
  rewrite next_rank_no_links by done.
  assert (close_enoughb (rank_after 0 corpus d) (rank_after 0 corpus d) = true)
    as ->; [|done].
  apply close_enoughb_spec, close_enough_refl.
Qed.

Lemma iterate_pagerank_no_links_witness :
  iterate_pagerank 1 {[ "A" := ∅; "B" := ∅; "C" := ∅ ]} DAMPING
  = Some (Ok (fromkeys (dom ({[ "A" := ∅; "B" := ∅; "C" := ∅ ]} : Corpus))
                (1 / Qc_of_nat (size ({[ "A" := ∅; "B" := ∅; "C" := ∅ ]} : Corpus))))).
Proof.
  apply (iterate_pagerank_no_links 1 {[ "A" := ∅; "B" := ∅; "C" := ∅ ]} DAMPING).
  - vm_compute. lia.
  - change (map_Forall (λ (_ : string) (links : gset string), links = ∅)
              ({[ "A" := ∅; "B" := ∅; "C" := ∅ ]} : Corpus)).
    compute_done.
  - lia.
Defined.

(** ** [crawl]: the pages and the links of the graph *)

Lemma extract_links_dom (findall : string → list string)
    (directory : list (string * string)) (k : string) :
  k ∈ dom (extract_links findall directory)
  ↔ ∃ contents, (k, contents) ∈ directory ∧ endswith k ".html" = true.
Proof.
  induction directory as [|[filename contents] directory IH] using rev_ind.
  - unfold extract_links. simpl. rewrite dom_empty_L. split; [set_solver|].
    intros (contents & Hin & _). by apply elem_of_nil in Hin.
  - rewrite extract_links_snoc.
    destruct (endswith filename ".html") eqn:Hf; simpl.
    + rewrite dom_insert_L, elem_of_union, elem_of_singleton, IH. split.
      * intros [->|(contents' & Hin & Hk)].
        -- exists contents. split; [|done]. apply elem_of_app. right. left.
        -- exists contents'. split; [|done]. apply elem_of_app. by left.
      * intros (contents' & Hin & Hk).
        apply elem_of_app in Hin as [Hin|Hin]; [right; eauto|].
        apply list_elem_of_singleton in Hin. injection Hin as -> _. by left.
    + rewrite IH. split.
      * intros (contents' & Hin & Hk). exists contents'.
        split; [|done]. apply elem_of_app. by left.
      * intros (contents' & Hin & Hk).
        apply elem_of_app in Hin as [Hin|Hin]; [eauto|].
        apply list_elem_of_singleton in Hin. injection Hin as -> _. congruence.
Qed.

(** X9: when [crawl] returns a graph for a directory without repeated
    names (all of whose HTML files have been read), the pages of the graph
    are the files whose name ends with [.html], and a page links to exactly
    the targets found in its file that are other pages of the graph. *)
Theorem crawl_pages_and_links (findall : string → list string)
    (directory : list (string * string)) (pages : Corpus) :
  NoDup directory.*1 →
  crawl findall directory = Ok pages →
  (∀ k, k ∈ dom pages
        ↔ ∃ contents, (k, contents) ∈ directory ∧ endswith k ".html" = true) ∧
  (∀ k contents,
     (k, contents) ∈ directory → endswith k ".html" = true →
     ∃ links, pages !! k = Some links ∧
       ∀ link, link ∈ links
               ↔ link ∈ findall contents ∧ link ≠ k ∧ link ∈ dom pages).
Proof.
  intros Hnd Hcrawl.
  destruct (crawl_Ok findall directory) as (pages' & Hrun & Hdom & Hlook).
  rewrite Hcrawl in Hrun. injection Hrun as <-. split.
  - intros k. rewrite Hdom. apply extract_links_dom.
  - intros k contents Hin Hk. rewrite Hlook.
    rewrite (extract_links_lookup findall directory k contents) by done.
    simpl. eexists. split; [done|]. intros link.
    rewrite elem_of_filter, elem_of_difference, elem_of_list_to_set,
      elem_of_singleton, Hdom.
    naive_solver.
Qed.

Lemma crawl_pages_and_links_witness :
  (∀ k, k ∈ dom ({[ "a.html" := ∅; "b.html" := {[ "a.html"; "c.html" ]};
                    "c.html" := {[ "b.html" ]} ]} : Corpus)
        ↔ ∃ contents, (k, contents) ∈ example_directory ∧
                      endswith k ".html" = true) ∧
  (∀ k contents,
     (k, contents) ∈ example_directory → endswith k ".html" = true →
     ∃ links,
       ({[ "a.html" := ∅; "b.html" := {[ "a.html"; "c.html" ]};
           "c.html" := {[ "b.html" ]} ]} : Corpus) !! k = Some links ∧
       ∀ link, link ∈ links
               ↔ link ∈ words contents ∧ link ≠ k ∧
                 link ∈ dom ({[ "a.html" := ∅;
                                "b.html" := {[ "a.html"; "c.html" ]};
                                "c.html" := {[ "b.html" ]} ]} : Corpus)).
Proof.
  apply (crawl_pages_and_links words example_directory).
  - compute_done.
  - compute_done.
Defined.

Lemma extract_links_html_only (findall : string → list string)
    (directory : list (string * string)) :
  extract_links findall
    (filter (λ file, endswith file.1 ".html" = true) directory)
  = extract_links findall directory.
Proof.
  induction directory as [|[filename contents] directory IH] using rev_ind.
  - done.
  - rewrite list.filter_app, extract_links_snoc.
    destruct (endswith filename ".html") eqn:Hf; simpl.
    + rewrite filter_cons_True by done. rewrite filter_nil.
      rewrite extract_links_snoc, Hf, IH. done.
    + rewrite filter_cons_False by (simpl; congruence).
      rewrite filter_nil, app_nil_r. done.
Qed.

(** X10: the files whose name does not end with [.html] have no effect on
    the graph: [crawl] returns the same graph for the directory without
    them. *)
Theorem crawl_html_only (findall : string → list string)
    (directory : list (string * string)) :
  crawl findall (filter (λ file, endswith file.1 ".html" = true) directory)
  = crawl findall directory.
Proof. unfold crawl. by rewrite extract_links_html_only. Qed.

(** ** [main] *)

#[global] Instance string_le_total : Total string_le.
Proof. intros s1 s2. apply String.leb_total. Qed.






(** The graph that [crawl] returns is a link graph. *)
Lemma crawl_closed (findall : string → list string)
    (directory : list (string * string)) (pages : Corpus) :
  crawl findall directory = Ok pages → closed_corpus pages.
Proof.
  intros Hrun.
  destruct (crawl_Ok findall directory) as (pages' & Hrun' & Hdom & Hlook).
  rewrite Hrun in Hrun'. injection Hrun' as <-.
  intros k links. rewrite Hlook.
  destruct (extract_links findall directory !! k) as [links0|]; [|done].
  intros [= <-] link [Hin _]%elem_of_filter. by rewrite Hdom.
Qed.

Lemma crawl_dom (findall : string → list string)
    (directory : list (string * string)) (pages : Corpus) (k : string) :
  crawl findall directory = Ok pages →
  k ∈ dom pages
  ↔ ∃ contents, (k, contents) ∈ directory ∧ endswith k ".html" = true.
Proof.
  intros Hrun.
  destruct (crawl_Ok findall directory) as (pages' & Hrun' & Hdom & _).
  rewrite Hrun in Hrun'. injection Hrun' as <-.
  rewrite Hdom. apply extract_links_dom.
Qed.


(** X11: when the directory given on the command line has no file whose
    name ends with [.html], [main] prints nothing and ends with an uncaught
    [IndexError]: the graph is empty and [random.choice] is called on the
    empty list of its pages (which raises [IndexError]). *)
Theorem main_no_pages {G : Type} `{RandomSource G}
    (findall : string → list string) (listdir : string → list (string * string))
    (format_4f : Qc → string) (fuel : nat) (program directory : string) (g : G) :
  (∀ g, random_choice [] g = Raise IndexError) →
  (∀ name contents,
     (name, contents) ∈ listdir directory → endswith name ".html" = false) →
  main findall listdir format_4f fuel [program; directory] g
  = ([], Some (Uncaught IndexError)).
Proof.
  intros Hempty Hnone. unfold main. simpl.
  destruct (crawl_Ok findall (listdir directory)) as (pages & Hrun & Hdom & _).
  rewrite Hrun.
  assert (pages = ∅) as ->.
  { apply dom_empty_inv_L. rewrite Hdom. apply set_eq. intros k.
    rewrite extract_links_dom. split; [|set_solver].
    intros (contents & Hin & Hk). rewrite (Hnone _ _ Hin) in Hk. done. }
  unfold sample_pagerank.
  replace (keys (∅ : Corpus)) with (@nil string) by (symmetry; by apply keys_nil).
  by rewrite Hempty.
Qed.

Lemma main_no_pages_witness :
  main words (λ _, [("notes.txt", "a.html"); ("b.htm", "notes.txt")])
       (λ _, "0.0000") 10 ["pagerank.py"; "corpus0"] 7%nat
  = ([], Some (Uncaught IndexError)).
Proof.
  apply (main_no_pages words _ _ 10 "pagerank.py" "corpus0" 7%nat).
  - intros g. reflexivity.
  - intros name contents Hin.
    apply elem_of_cons in Hin as [[= -> ->]|Hin]; [reflexivity|].
    apply list_elem_of_singleton in Hin as [= -> ->]. reflexivity.
Defined.



(** ** [crawl] and [transition_model] together *)

(** X13: the graph that [crawl] returns is a valid input of
    [transition_model]: for every page of the graph and every damping
    factor the call returns a distribution over the pages of the graph
    whose values sum to 1; it never raises [KeyError]. *)
Theorem crawl_transition_model (findall : string → list string)
    (directory : list (string * string)) (pages : Corpus) (p : string) (d : Qc) :
  crawl findall directory = Ok pages →
  p ∈ dom pages →
  ∃ dist, transition_model pages p d = Ok dist ∧
    dom dist = dom pages ∧ sum_values dist = 1.
Proof.
  intros Hcrawl [links Hp]%elem_of_dom.
  pose proof (crawl_closed _ _ _ Hcrawl p links Hp) as Hlinks.
  destruct (transition_model_Ok pages p d links Hp Hlinks) as (dist & Hrun & Hdom).
  exists dist. split; [done|]. split; [done|].
  by eapply transition_model_sum.
Qed.

Lemma crawl_transition_model_witness :
  ∃ dist,
    transition_model
      {[ "a.html" := ∅; "b.html" := {[ "a.html"; "c.html" ]};
         "c.html" := {[ "b.html" ]} ]} "b.html" DAMPING = Ok dist ∧
    dom dist = dom ({[ "a.html" := ∅; "b.html" := {[ "a.html"; "c.html" ]};
                       "c.html" := {[ "b.html" ]} ]} : Corpus) ∧
    sum_values dist = 1.
Proof.
  apply (crawl_transition_model words example_directory).
  - compute_done.
  - compute_done.
Defined.

(** ** A round of [iterate_pagerank] is a contraction *)

(** X14: on a link graph with at least one page and for a damping factor
    [d ≥ 0], a round brings any two rank vectors closer to each other by the
    factor [d]: the sum over the pages of the differences of the new ranks
    is at most [d] times the sum of the differences of the old ranks. *)
Theorem update_ranks_contraction (corpus : Corpus) (d : Qc)
    (rank rank' new_rank0 : Dict) :
  (1 ≤ size corpus)%nat →
  closed_corpus corpus →
  0 ≤ d →
  dom rank = dom corpus → dom rank' = dom corpus →
  dom new_rank0 = dom corpus →
  ∃ new_rank new_rank',
    update_ranks corpus d (size corpus) rank new_rank0 = Ok new_rank ∧
    update_ranks corpus d (size corpus) rank' new_rank0 = Ok new_rank' ∧
    distance corpus new_rank new_rank' ≤ d * distance corpus rank rank'.
Proof.
  intros HN Hclosed Hd Hrank Hrank' Hnew.
  assert (size corpus ≠ 0%nat) as HN' by lia.
  exists (next_rank corpus d rank), (next_rank corpus d rank').
  split; [by apply update_ranks_Ok|]. split; [by apply update_ranks_Ok|].
  by apply distance_next_rank.
Qed.

Lemma update_ranks_contraction_witness :
  ∃ new_rank new_rank',
    update_ranks corpusAB DAMPING (size corpusAB)
      (rank_after 0 corpusAB DAMPING) (rank_after 0 corpusAB DAMPING)
    = Ok new_rank ∧
    update_ranks corpusAB DAMPING (size corpusAB)
      (rank_after 3 corpusAB DAMPING) (rank_after 0 corpusAB DAMPING)
    = Ok new_rank' ∧
    distance corpusAB new_rank new_rank'
    ≤ DAMPING * distance corpusAB (rank_after 0 corpusAB DAMPING)
                         (rank_after 3 corpusAB DAMPING).
Proof.
  apply (update_ranks_contraction corpusAB DAMPING).
  - vm_compute. lia.
  - compute_done.
  - by vm_compute.
  - compute_done.
  - compute_done.
  - compute_done.
Defined.
(** ** Determinism of [sample_pagerank] *)

(** The keys of a dict of the model come in the order of the elements of
    its key set. *)
Lemma keys_elements_dom {V} (d : gmap string V) : keys d = elements (dom d).
Proof.
  unfold keys, elements, gset_elements, mapset.mapset_elements.
  unfold dom, gset_dom. destruct d as [mt]. simpl.
  change (GMap (gmap.gmap_dep_fmap (λ _ : V, ()) mt))
    with ((λ _ : V, ()) <$> GMap mt).
  rewrite map_to_list_fmap, <-list_fmap_compose. done.
Qed.

Lemma keys_dom_eq {V W} (d : gmap string V) (d' : gmap string W) :
  dom d = dom d' → keys d = keys d'.
Proof. intros Hdom. by rewrite !keys_elements_dom, Hdom. Qed.

Lemma getitems_keys (d : Dict) : getitems d (keys d) = Ok (values d).
Proof.
  unfold keys, values.
  assert (Forall (λ kv, d !! kv.1 = Some kv.2) (map_to_list d)) as Hall.
  { apply Forall_lookup. intros i [k v] Hi. simpl.
    apply elem_of_map_to_list. by eapply list_elem_of_lookup_2. }
  induction Hall as [|[k v] l Hkv _ IH]; csimpl; [done|].
  simpl in Hkv. by rewrite (getitem_Some _ _ _ Hkv), IH.
Qed.

Lemma add_at_dom (x : Qc) (k : string) (m m' : Dict) :
  add_at x k m = Ok m' → dom m' = dom m.
Proof.
  unfold add_at. intros Hrun. apply bind_Ok_inv in Hrun as (v & Hv & Hm').
  apply getitem_Ok in Hv. injection Hm' as <-.
  rewrite dom_insert_L. apply elem_of_dom_2 in Hv. set_solver.
Qed.

Lemma for_each_dom {A} (body : A → Dict → result Dict) (l : list A) (m m' : Dict) :
  (∀ x m m', body x m = Ok m' → dom m' = dom m) →
  for_each l body m = Ok m' → dom m' = dom m.
Proof.
  intros Hbody. revert m. induction l as [|x l IH]; intros m Hrun.
  - by injection Hrun as <-.
  - cbn [for_each] in Hrun. apply bind_Ok_inv in Hrun as (m1 & Hx & Hrun).
    rewrite (IH _ Hrun). by eapply Hbody.
Qed.

Lemma transition_model_dom (corpus : Corpus) (page : string) (d : Qc) (dist : Dict) :
  transition_model corpus page d = Ok dist → dom dist = dom corpus.
Proof.
  unfold transition_model. intros Hrun.
  apply bind_Ok_inv in Hrun as (base & _ & Hrun).
  apply bind_Ok_inv in Hrun as (links & _ & Hrun).
  rewrite <-(dom_fromkeys (dom corpus) base). case_bool_decide.
  - apply bind_Ok_inv in Hrun as (link_prob & _ & Hrun).
    eapply for_each_dom; [|exact Hrun]. intros k m m'. apply add_at_dom.
  - eapply for_each_dom; [|exact Hrun]. intros k m m' Hk.
    apply bind_Ok_inv in Hk as (q & _ & Hk). by eapply add_at_dom.
Qed.

(** The order in which the entries of a dict are increased does not
    matter. *)
Lemma for_each_add_at_Permutation (x : Qc) (l1 l2 : list string) (m : Dict) :
  l1 ≡ₚ l2 → NoDup l1 →
  for_each l1 (add_at x) m = for_each l2 (add_at x) m.
Proof.
  intros Hperm Hnd1. assert (NoDup l2) as Hnd2 by (by rewrite <-Hperm).
  destruct (decide (Forall (λ k, k ∈ dom m) l1)) as [Hall|Hnot].
  - assert (∀ k, k ∈ l1 → k ∈ dom m) as Hall'.
    { intros k Hk. apply list_elem_of_lookup in Hk as [i Hi].
      by eapply Forall_lookup_1 in Hall. }
    destruct (for_each_add_at x l1 m Hnd1 Hall') as (m1 & -> & Hdom1 & Hlook1 & _).
    destruct (for_each_add_at x l2 m Hnd2) as (m2 & -> & Hdom2 & Hlook2 & _).
    { intros k Hk. rewrite <-Hperm in Hk. by apply Hall'. }
    f_equal. apply map_eq. intros k. destruct (m !! k) as [v|] eqn:Hk.
    + rewrite (Hlook1 k v Hk), (Hlook2 k v Hk).
      rewrite (bool_decide_ext (k ∈ l1) (k ∈ l2)); [done|]. by rewrite Hperm.
    + apply not_elem_of_dom in Hk.
      rewrite (not_elem_of_dom_1 m1 k), (not_elem_of_dom_1 m2 k); congruence.
  - apply not_Forall_Exists in Hnot; [|apply _].
    apply list.Exists_exists in Hnot as (k & Hk & Hout).
    rewrite (for_each_add_at_KeyError x l1 m k) by done.
    rewrite (for_each_add_at_KeyError x l2 m k); [done| |done].
    by rewrite <-Hperm.
Qed.

Section set_order.
Context {G : Type} `{RandomSource G}.
Context (key_order : list string).
Context (set_order1 set_order2 : gset string → list string).
Hypothesis Horder1 : ∀ links, set_order1 links ≡ₚ elements links.
Hypothesis Horder2 : ∀ links, set_order2 links ≡ₚ elements links.

(** The distribution does not depend on the order in which the links of
    the page are iterated. *)
Lemma transition_model_in_set_order (corpus : Corpus) (page : string) (d : Qc) :
  transition_model_in key_order set_order1 corpus page d
  = transition_model_in key_order set_order2 corpus page d.
Proof.
  unfold transition_model_in.
  destruct (pydiv (1 - d) (Qc_of_nat (size corpus))) as [base|e]; [|done].
  simpl. destruct (getitem corpus page) as [links|e]; [|done]. simpl.
  case_bool_decide; [|done].
  destruct (pydiv d (Qc_of_nat (size links))) as [link_prob|e]; [|done].
  simpl. apply for_each_add_at_Permutation.
  - by rewrite Horder1, Horder2.
  - rewrite Horder1. apply NoDup_elements.
Qed.

Lemma sample_step_in_set_order (corpus : Corpus) (d : Qc) (w : walk) :
  sample_step_in key_order set_order1 corpus d w
  = sample_step_in key_order set_order2 corpus d w.
Proof.
  destruct w as [[pagerank sample] g]. unfold sample_step_in.
  by rewrite transition_model_in_set_order.
Qed.

Lemma sample_pagerank_in_set_order (corpus : Corpus) (d : Qc) (n : Z) (g : G) :
  sample_pagerank_in key_order set_order1 corpus d n g
  = sample_pagerank_in key_order set_order2 corpus d n g.
Proof.
  unfold sample_pagerank_in.
  destruct (random_choice key_order g) as [[sample g0]|e]; [|done]. simpl.
  rewrite (for_each_ext _ (λ _, sample_step_in key_order set_order2 corpus d));
    [done|].
  intros _ w. apply sample_step_in_set_order.
Qed.
End set_order.

(** ** The orders of the model *)

Lemma transition_model_in_keys (corpus : Corpus) (page : string) (d : Qc) :
  transition_model_in (keys corpus) elements corpus page d
  = transition_model corpus page d.
Proof.
  unfold transition_model_in, transition_model.
  destruct (pydiv (1 - d) (Qc_of_nat (size corpus))) as [base|e]; [|done].
  simpl.
  by rewrite (keys_dom_eq (fromkeys (dom corpus) base) corpus)
    by apply dom_fromkeys.
Qed.

Lemma sample_step_in_keys {G : Type} `{RandomSource G} (corpus : Corpus)
    (d : Qc) (w : walk) :
  sample_step_in (keys corpus) elements corpus d w = sample_step corpus d w.
Proof.
  destruct w as [[pagerank sample] g]. unfold sample_step_in, sample_step.
  destruct (add_at 1 sample pagerank) as [pagerank'|e]; [|done]. simpl.
  rewrite transition_model_in_keys.
  destruct (transition_model corpus sample d) as [dist|e] eqn:Hdist; [|done].
  simpl. apply transition_model_dom in Hdist.
  rewrite <-(keys_dom_eq dist corpus Hdist), getitems_keys. done.
Qed.

(** The loop of the walk keeps the keys of the counters. *)
Lemma for_each_sample_step_dom {G : Type} `{RandomSource G} (corpus : Corpus)
    (d : Qc) (l : list Z) (w w' : walk) :
  for_each l (λ _, sample_step corpus d) w = Ok w' → dom w'.1.1 = dom w.1.1.
Proof.
  revert w. induction l as [|x l IH]; intros w Hrun.
  - by injection Hrun as <-.
  - cbn [for_each] in Hrun. apply bind_Ok_inv in Hrun as (w1 & Hstep & Hrun).
    rewrite (IH _ Hrun). destruct w as [[pagerank sample] g].
    apply sample_step_inv in Hstep as (c & dist & sample' & g' & Hc & _ & _ & ->).
    simpl. rewrite dom_insert_L. apply elem_of_dom_2 in Hc. set_solver.
Qed.

Lemma sample_pagerank_in_keys {G : Type} `{RandomSource G} (corpus : Corpus)
    (d : Qc) (n : Z) (g : G) :
  sample_pagerank_in (keys corpus) elements corpus d n g
  = sample_pagerank corpus d n g.
Proof.
  unfold sample_pagerank_in, sample_pagerank.
  destruct (random_choice (keys corpus) g) as [[sample g0]|e]; [|done]. simpl.
  rewrite (for_each_ext _ (λ _, sample_step corpus d))
    by (intros _ w; apply sample_step_in_keys).
  destruct (for_each (range n) (λ _, sample_step corpus d)
              (fromkeys (dom corpus) 0, sample, g0))
    as [[[pagerank sample'] g']|e] eqn:Hrun; [|done].
  simpl. apply for_each_sample_step_dom in Hrun. simpl in Hrun.
  rewrite dom_fromkeys in Hrun.
  by rewrite (keys_dom_eq pagerank corpus Hrun).
Qed.

(** C9: two runs of [sample_pagerank] on the same graph (the same dict, with
    its keys in the same order), with the same damping factor, the same
    sample count and the random source in the same state give the same
    result: the same rank vector and state of the random source, or the
    same exception, whatever the orders are in which the two runs iterate
    the sets of links (orders that change with the hash seed of the
    interpreter).  [sample_pagerank] is the run in which dicts and sets are
    iterated in the order of [keys] and [elements]. *)
Theorem sample_pagerank_deterministic {G : Type} `{RandomSource G}
    (corpus : Corpus) (d : Qc) (n : Z) (g : G) (key_order : list string)
    (set_order1 set_order2 : gset string → list string) :
  (∀ links, set_order1 links ≡ₚ elements links) →
  (∀ links, set_order2 links ≡ₚ elements links) →
  sample_pagerank_in key_order set_order1 corpus d n g
  = sample_pagerank_in key_order set_order2 corpus d n g ∧
  sample_pagerank_in (keys corpus) elements corpus d n g
  = sample_pagerank corpus d n g.
Proof.
  intros Horder1 Horder2. split.
  - by apply sample_pagerank_in_set_order.
  - apply sample_pagerank_in_keys.
Qed.

Lemma sample_pagerank_deterministic_witness :
  sample_pagerank_in ["2.html"; "3.html"; "1.html"] elements corpus3 DAMPING 5 7%nat
  = sample_pagerank_in ["2.html"; "3.html"; "1.html"] (λ links, reverse (elements links))
      corpus3 DAMPING 5 7%nat ∧
  sample_pagerank_in (keys corpus3) elements corpus3 DAMPING 5 7%nat
  = sample_pagerank corpus3 DAMPING 5 7%nat.
Proof.
  apply (sample_pagerank_deterministic corpus3 DAMPING 5 7%nat
           ["2.html"; "3.html"; "1.html"] elements (λ links, reverse (elements links))).
  - intros links. reflexivity.
  - intros links. apply reverse_Permutation.
Defined.

(** The order of the keys of the graph is part of what the two runs share:
    with the example source in the same state, the same corpus with its
    keys in two different orders gives two different rank vectors. *)
Lemma sample_pagerank_in_key_order :
  sample_pagerank_in ["1.html"; "2.html"; "3.html"] elements corpus3 DAMPING 5 7%nat
  ≠ sample_pagerank_in ["3.html"; "2.html"; "1.html"] elements corpus3 DAMPING 5 7%nat.
Proof. compute_done. Qed.
